(** * textmoji-sense: the emoji matching engine (src/utils/emojiMatcher.ts)

    A shallow embedding of the four exported operations of the matching
    engine and of its two private helpers, [cosineSimilarity] and
    [levenshteinDistance], followed by the properties of the engine.

    Conventions of the embedding.
    - A JavaScript string is the list of its UTF-16 code units ([str]).
    - A JavaScript number that is always an integer in the source (lengths,
      counters, the scores of the word matcher, [maxResults]) is a [nat] or
      a [Z]; the scores of the sentence matcher and the sums, square
      roots and quotient of [cosineSimilarity], which are genuine doubles,
      are primitive binary64 floats.
    - An operation that can raise a [TypeError] in the source (reading a
      property of [undefined]) returns an [option]; [None] is the raised
      exception.
    - The two mutable locals [matches] and [seenEmojis] of the predictors
      are threaded explicitly as an accumulator record. *)

From Stdlib Require Import String Ascii ZArith Lia Floats.
From stdpp Require Import base option list gmap sorting.

#[local] Open Scope Z_scope.
#[local] Open Scope list_scope.

(** ** JavaScript strings *)

Module JS.

(** A string is its sequence of UTF-16 code units. *)
Abbreviation str := (list N).

(** An ASCII literal as a JavaScript string. *)
Definition lit (s : string) : str :=
  List.map (fun a => N.of_nat (nat_of_ascii a)) (list_ascii_of_string s).

(** The code units matched by [\s] in a regular expression, which are
    also the ones removed by [String.prototype.trim] (ECMAScript
    WhiteSpace and LineTerminator). *)
Definition isSpace (c : N) : bool :=
  ((9 <=? c) && (c <=? 13) || (c =? 32) || (c =? 160) || (c =? 5760)
   || (8192 <=? c) && (c <=? 8202) || (c =? 8232) || (c =? 8233)
   || (c =? 8239) || (c =? 8287) || (c =? 12288) || (c =? 65279))%N.

Fixpoint trimStart (s : str) : str :=
  match s with
  | c :: s' => if isSpace c then trimStart s' else s
  | [] => []
  end.

Definition trimEnd (s : str) : str := rev (trimStart (rev s)).

(** [s.trim()] *)
Definition trim (s : str) : str := trimEnd (trimStart s).

(** [s.split(/\s+/)]: [sep] tells that the scan is inside a separator run,
    [tok] is the token read so far. The empty string yields one empty
    token, and a leading or trailing run yields an empty token too. *)
Fixpoint splitFrom (sep : bool) (tok : str) (s : str) : list str :=
  match s with
  | [] => [tok]
  | c :: s' =>
      if isSpace c
      then (if sep then splitFrom true [] s' else tok :: splitFrom true [] s')
      else splitFrom false (tok ++ [c]) s'
  end.

Definition split (s : str) : list str := splitFrom false [] s.

(** [s.startsWith(p)] *)
Fixpoint startsWith (s p : str) : bool :=
  match p, s with
  | [], _ => true
  | c :: p', d :: s' => bool_decide (c = d) && startsWith s' p'
  | _ :: _, [] => false
  end.

(** [s.includes(p)] *)
Fixpoint includes (s p : str) : bool :=
  startsWith s p ||
  match s with
  | [] => false
  | _ :: s' => includes s' p
  end.

(** [s.charAt(i)] is a string of length one, or the empty string when [i]
    is out of range; two such strings are equal exactly when the two
    lookups are. *)
Definition charAt (s : str) (i : nat) : option N := s !! i.

(** [arr[i] = v] on an array without holes: an index inside the array
    overwrites, the index just past the end appends. An index further
    out would leave holes, which the embedding does not represent. *)
Definition store {A} (arr : list A) (i : nat) (v : A) : option (list A) :=
  if decide (i < length arr)%nat then Some (<[i:=v]> arr)
  else if decide (i = length arr) then Some (arr ++ [v])
  else None.

(** [arr.slice(0, end)] for an integer [end]: a negative [end] counts from
    the end of the array. *)
Definition slice0 {A} (arr : list A) (e : Z) : list A :=
  let len := Z.of_nat (length arr) in
  let final := if e <? 0 then Z.max (len + e) 0 else Z.min e len in
  take (Z.to_nat final) arr.

(** [arr.sort(cmp)]: the sort is stable, so when [cmp] is a consistent
    comparator the result is the one of a stable insertion sort.
    [after a b] is [cmp(a, b) > 0]: [a] has to come after [b]. *)
Section Sort.
Context {A : Type} (after : A -> A -> bool).

Fixpoint insertSorted (x : A) (l : list A) : list A :=
  match l with
  | [] => [x]
  | y :: l' => if after x y then y :: insertSorted x l' else x :: l
  end.

Fixpoint sort (l : list A) : list A :=
  match l with
  | [] => []
  | x :: l' => insertSorted x (sort l')
  end.
End Sort.

(** A [for] loop over the indices [l] whose body can raise. *)
Fixpoint forEachM {S I} (body : I -> S -> option S) (l : list I) (s : S)
  : option S :=
  match l with
  | [] => Some s
  | i :: l' => s' ← body i s; forEachM body l' s'
  end.

End JS.

Import JS.

(** ** levenshteinDistance *)

Abbreviation Matrix := (list (list nat)).

(** [matrix[i][j]]; [None] when the row or the entry is [undefined]. *)
Definition mget (matrix : Matrix) (i j : nat) : option nat :=
  row ← matrix !! i; row !! j.

(** [matrix[i][j] = v] *)
Definition mset (matrix : Matrix) (i j v : nat) : option Matrix :=
  row ← matrix !! i; row' ← store row j v; store matrix i row'.

Definition levCell (str1 str2 : str) (i j : nat) (matrix : Matrix)
  : option Matrix :=
  if decide (charAt str2 (i - 1) = charAt str1 (j - 1)) then
    d ← mget matrix (i - 1) (j - 1); mset matrix i j d
  else
    a ← mget matrix (i - 1) (j - 1);
    b ← mget matrix i (j - 1);
    c ← mget matrix (i - 1) j;
    mset matrix i j (Nat.min (a + 1) (Nat.min (b + 1) (c + 1))).

Definition levRow (str1 str2 : str) (i : nat) (matrix : Matrix)
  : option Matrix :=
  forEachM (levCell str1 str2 i) (seq 1 (length str1)) matrix.

Definition levenshteinDistance (str1 str2 : str) : option nat :=
  m0 ← forEachM (fun i m => store m i [i]) (seq 0 (S (length str2))) [];
  m1 ← forEachM (fun j m => mset m 0 j j) (seq 0 (S (length str1))) m0;
  m2 ← forEachM (levRow str1 str2) (seq 1 (length str2)) m1;
  mget m2 (length str2) (length str1).

(** The edit distance, by the textbook recursion on the two strings. *)
Fixpoint lev (a : str) : str -> nat :=
  fix levA (b : str) : nat :=
    match a, b with
    | [], _ => length b
    | _, [] => length a
    | x :: a', y :: b' =>
        if decide (x = y) then lev a' b'
        else S (Nat.min (lev a' b') (Nat.min (lev a' b) (levA b')))
    end.

(** One single-character edit, anywhere in the string. *)
Inductive edit_step : str -> str -> Prop :=
  | edit_insert l1 l2 x : edit_step (l1 ++ l2) (l1 ++ x :: l2)
  | edit_delete l1 l2 x : edit_step (l1 ++ x :: l2) (l1 ++ l2)
  | edit_substitute l1 l2 x y : edit_step (l1 ++ x :: l2) (l1 ++ y :: l2).

(** [edit_path n a b]: [n] single-character edits turn [a] into [b]. *)
Inductive edit_path : nat -> str -> str -> Prop :=
  | edit_path_nil a : edit_path 0 a a
  | edit_path_cons n a b c :
      edit_step a b -> edit_path n b c -> edit_path (S n) a c.

(** ** Numbers

    The token counts of [cosineSimilarity] are lengths of arrays, integers
    below 2^32 that a double holds exactly; they are kept in [Z].
    Everything computed from them is binary64, in the order of the
    source: the product of two counts is the double nearest to the
    product of the two integers, which is what the binary64
    multiplication of their two doubles returns ([mul_Z2F]), and the sums
    are accumulated in binary64 from [0] along the vocabulary, one
    rounding at each addition.  [Z2F] is the correctly rounded conversion
    of an integer to binary64. *)

(** The double nearest to [0.3], the literal of the source. *)
Definition threshold : float := 0x1.3333333333333p-2%float.

Definition Z2F (z : Z) : float := SF2Prim (binary_normalize prec emax z 0 false).

(** ** The knowledge base and the candidates *)

Module EmojiData.
(** [EmojiData] of [@/data/emojiDatabase]. *)
Record t := mk { emoji : str; keywords : list str; category : str }.
End EmojiData.

Inductive MatchType := exact | prefix | semantic | fuzzy.

(** [EmojiMatch]; [num] is the type of the score: [Z] in the word matcher,
    whose scores are integers, and [float] in the sentence matcher. *)
Record EmojiMatch (num : Type) := mkMatch
  { emoji : str; score : num; matchType : MatchType }.
Arguments mkMatch {num}.
Arguments emoji {num}.
Arguments score {num}.
Arguments matchType {num}.

(** The two locals [matches] and [seenEmojis] of a predictor. *)
Record Acc (num : Type) := mkAcc
  { matches : list (EmojiMatch num); seenEmojis : gset str }.
Arguments mkAcc {num}.
Arguments matches {num}.
Arguments seenEmojis {num}.

Definition emptyAcc {num} : Acc num := mkAcc [] ∅.

(** The body shared by every pass:
    [if (!seenEmojis.has(emoji)) { matches.push({...}); seenEmojis.add(emoji) }] *)
Definition claim {num} (sc : num) (mt : MatchType) (acc : Acc num) (e : str)
  : Acc num :=
  if decide (e ∈ seenEmojis acc) then acc
  else mkAcc (matches acc ++ [mkMatch e sc mt]) (seenEmojis acc ∪ {[e]}).

(** [emojis.forEach(emoji => ...)] with the body above. *)
Definition claimAll {num} (sc : num) (mt : MatchType) (acc : Acc num)
  (emojis : list str) : Acc num :=
  foldl (claim sc mt) acc emojis.

(** [Array.from(new Set(l))]: the distinct elements of [l] in the order of
    their first occurrence. *)
Definition setOf (l : list str) : list str :=
  foldl (fun acc w => if decide (w ∈ acc) then acc else acc ++ [w]) [] l.

(** [words.filter(w => w === word).length] *)
Definition countOf (word : str) (words : list str) : Z :=
  Z.of_nat (length (filter (fun w => w = word) words)).

Section Engine.

(** [String.prototype.toLowerCase], which follows the Unicode case
    mapping and is left abstract. *)
Variable toLowerCase : str -> str.

(** [emojiDatabase] and [emojiKeywordIndex], imported by the source from
    [@/data/emojiDatabase]: the records in declaration order, and the
    entries of the [Map] from keyword to symbols in insertion order,
    which is the order [Map.prototype.forEach] visits them in. *)
Variable emojiDatabase : list EmojiData.t.
Variable emojiKeywordIndex : list (str * list str).

(** [emojiKeywordIndex.has(k)] and [emojiKeywordIndex.get(k)] *)
Definition indexHas (k : str) : bool :=
  bool_decide (k ∈ emojiKeywordIndex.*1).

Definition indexGet (k : str) : option (list str) :=
  snd <$> find (fun kv => bool_decide (kv.1 = k)) emojiKeywordIndex.

(** The symbols the exact pass meets: the entry of the word, if any. *)
Definition exactSymbols (normalizedWord : str) : list str :=
  default [] (indexGet normalizedWord).

(** Every symbol of the index. *)
Definition indexSymbols : list str := mjoin emojiKeywordIndex.*2.

(** *** cosineSimilarity *)

(** [vector1.reduce((sum, val, i) => sum + val * vector2[i], 0)]: the sum
    is accumulated in binary64 from [0], in the order of the vocabulary.
    The two factors are token counts, held exactly by their doubles, so
    their binary64 product is the double nearest to their integer
    product; [dotProduct_as_written] gives the reduction with the
    product of the two doubles.  The two vectors have the same length,
    so [vector2[i]] is always defined. *)
Definition dotProduct (vector1 vector2 : list Z) : float :=
  foldl (fun sum iv => (sum + Z2F (iv.2 * default 0 (vector2 !! iv.1))%Z)%float)
    0%float (imap pair vector1).

(** [vector.reduce((sum, val) => sum + val * val, 0)], in binary64 in the
    same way; [sumSquares_as_written] gives the reduction with the
    product of the two doubles. *)
Definition sumSquares (vector : list Z) : float :=
  foldl (fun sum val => (sum + Z2F (val * val)%Z)%float) 0%float vector.

(** The two frequency vectors over the union vocabulary. *)
Definition frequencyVectors (str1 str2 : str) : list Z * list Z :=
  let words1 := split (toLowerCase str1) in
  let words2 := split (toLowerCase str2) in
  let allWords := setOf (words1 ++ words2) in
  ((fun word => countOf word words1) <$> allWords,
   (fun word => countOf word words2) <$> allWords).

(** [Math.sqrt(vector.reduce((sum, val) => sum + val * val, 0))] *)
Definition magnitude (vector : list Z) : float :=
  PrimFloat.sqrt (sumSquares vector).

Definition cosineSimilarity (str1 str2 : str) : float :=
  let '(vector1, vector2) := frequencyVectors str1 str2 in
  let magnitude1 := magnitude vector1 in
  let magnitude2 := magnitude vector2 in
  if (magnitude1 =? 0)%float || (magnitude2 =? 0)%float then 0%float
  else (dotProduct vector1 vector2 / (magnitude1 * magnitude2))%float.

(** *** predictEmojisForWord *)

Definition len (s : str) : Z := Z.of_nat (length s).

(** 1. Exact matches *)
Definition exactPass (normalizedWord : str) (acc : Acc Z) : option (Acc Z) :=
  if indexHas normalizedWord then
    emojis ← indexGet normalizedWord;
    Some (claimAll 100 exact acc emojis)
  else Some acc.

(** 2. Prefix matches *)
Definition prefixEntry (normalizedWord : str) (acc : Acc Z)
  (entry : str * list str) : Acc Z :=
  let '(keyword, emojis) := entry in
  if startsWith keyword normalizedWord
     && negb (bool_decide (keyword = normalizedWord))
  then claimAll (90 - (len keyword - len normalizedWord) * 2) prefix acc emojis
  else acc.

Definition prefixPass (normalizedWord : str) (acc : Acc Z) : Acc Z :=
  foldl (prefixEntry normalizedWord) acc emojiKeywordIndex.

(** 3. Fuzzy matches *)
Definition fuzzyEntry (normalizedWord : str) (entry : str * list str)
  (acc : Acc Z) : option (Acc Z) :=
  let '(keyword, emojis) := entry in
  if Z.abs (len keyword - len normalizedWord) <=? 2 then
    distance ← levenshteinDistance normalizedWord keyword;
    if (distance <=? 2)%nat
    then Some (claimAll (80 - Z.of_nat distance * 10) fuzzy acc emojis)
    else Some acc
  else Some acc.

Definition fuzzyPass (normalizedWord : str) (maxResults : Z) (acc : Acc Z)
  : option (Acc Z) :=
  if Z.of_nat (length (matches acc)) <? maxResults
  then forEachM (fuzzyEntry normalizedWord) emojiKeywordIndex acc
  else Some acc.

(** 4. Semantic matches *)
Definition semanticEntry (normalizedWord : str) (acc : Acc Z)
  (entry : str * list str) : Acc Z :=
  let '(keyword, emojis) := entry in
  if includes keyword normalizedWord
     && negb (bool_decide (keyword = normalizedWord))
  then claimAll 70 semantic acc emojis
  else acc.

Definition semanticPass (normalizedWord : str) (maxResults : Z) (acc : Acc Z)
  : Acc Z :=
  if (Z.of_nat (length (matches acc)) <? maxResults)
     && (3 <=? len normalizedWord)
  then foldl (semanticEntry normalizedWord) acc emojiKeywordIndex
  else acc.

(** The candidates of the exact and the prefix pass alone. *)
Definition exactAndPrefix (normalizedWord : str) : list (EmojiMatch Z) :=
  matches (prefixPass normalizedWord
             (claimAll 100 exact emptyAcc (exactSymbols normalizedWord))).

(** The four passes in sequence: [matches] and [seenEmojis] at the point
    of the final sort. *)
Definition wordCandidates (normalizedWord : str) (maxResults : Z)
  : option (Acc Z) :=
  acc1 ← exactPass normalizedWord emptyAcc;
  acc3 ← fuzzyPass normalizedWord maxResults (prefixPass normalizedWord acc1);
  Some (semanticPass normalizedWord maxResults acc3).

(** [(a, b) => b.score - a.score] is positive when [a] scores less. *)
Definition afterZ (a b : EmojiMatch Z) : bool := 0 <? score b - score a.

Definition rank (ms : list (EmojiMatch Z)) (maxResults : Z) : list str :=
  emoji <$> slice0 (sort afterZ ms) maxResults.

Definition predictEmojisForWord (word : str) (maxResults : Z)
  : option (list str) :=
  if bool_decide (word = []) || (len word <? 2) then Some []
  else
    let normalizedWord := trim (toLowerCase word) in
    acc ← wordCandidates normalizedWord maxResults;
    Some (rank (matches acc) maxResults).

(** *** predictEmojisForSentence *)

(** Analyze each word: the body of [words.forEach]. *)
Definition wordStep (word : str) (acc : Acc float) : option (Acc float) :=
  wordEmojis ← predictEmojisForWord word 3;
  Some (claimAll 90%float exact acc wordEmojis).

(** The body of [data.keywords.forEach] on the two locals
    [score] and [matchedKeywords]. *)
Definition keywordStep (normalizedSentence : str) (sm : float * nat)
  (keyword : str) : float * nat :=
  let '(score, matchedKeywords) := sm in
  let keywordLower := toLowerCase keyword in
  if includes normalizedSentence keywordLower then
    ((score + 80)%float, S matchedKeywords)
  else
    let similarity := cosineSimilarity normalizedSentence keywordLower in
    if (threshold <? similarity)%float
    then ((score + similarity * 60)%float, S matchedKeywords)
    else (score, matchedKeywords).

(** The body of [emojiDatabase.forEach]. *)
Definition recordStep (normalizedSentence : str) (acc : Acc float)
  (data : EmojiData.t) : Acc float :=
  let '(score, matchedKeywords) :=
    foldl (keywordStep normalizedSentence) (0%float, 0%nat)
      (EmojiData.keywords data) in
  if bool_decide (0 < matchedKeywords)%nat
     && negb (bool_decide (EmojiData.emoji data ∈ seenEmojis acc))
  then mkAcc
         (matches acc ++
            [mkMatch (EmojiData.emoji data)
               (score / Z2F (Z.of_nat matchedKeywords))%float semantic])
         (seenEmojis acc ∪ {[EmojiData.emoji data]})
  else acc.

Definition sentenceCandidates (normalizedSentence : str)
  : option (Acc float) :=
  acc1 ← forEachM wordStep (split normalizedSentence) emptyAcc;
  Some (foldl (recordStep normalizedSentence) acc1 emojiDatabase).

Definition afterF (a b : EmojiMatch float) : bool :=
  (0 <? score b - score a)%float.

Definition predictEmojisForSentence (sentence : str) (maxResults : Z)
  : option (list str) :=
  if bool_decide (sentence = []) || bool_decide (length (trim sentence) = 0%nat)
  then Some []
  else
    let normalizedSentence := trim (toLowerCase sentence) in
    acc ← sentenceCandidates normalizedSentence;
    Some (emoji <$> slice0 (sort afterF (matches acc)) maxResults).

(** *** getEmojisByCategory *)

Definition getEmojisByCategory (category : str) (limit : Z) : list str :=
  EmojiData.emoji <$>
    slice0 (filter (fun data => EmojiData.category data = category)
              emojiDatabase) limit.

End Engine.

(** *** getPopularEmojis

    The twenty literals of the source file, code unit by code unit. *)
Definition getPopularEmojis : list str :=
  ([ [287; 376; 732; 8364]; [287; 376; 732; 8218]; [287; 376; 165; 176];
     [287; 376; 732]; [287; 376; 164; 169]; [287; 376; 732];
     [287; 376; 165; 179]; [287; 376; 732; 173]; [287; 376; 732; 164];
     [287; 376; 165; 186];
     [287; 376; 8216]; [287; 376; 8216]; [287; 376; 8482];
     [287; 376; 8217; 170]; [226; 339; 168]; [287; 376; 8240];
     [287; 376; 8221; 165]; [226; 164; 239; 184]; [287; 376; 8217; 175];
     [226; 339; 8230] ])%N.

(** ** A small knowledge base

    The engine takes its knowledge base from the data module; the examples
    run it on a knowledge base of three records in the shape the
    specification gives them. *)
Module Sample.

(** ASCII case mapping: [toLowerCase] on strings of Basic Latin. *)
Definition toLowerCase (s : str) : str :=
  (fun c => if (65 <=? c) && (c <=? 90) then c + 32 else c)%N <$> s.

Definition grinning : str := [55357; 56832]%N.
Definition party : str := [55356; 57225]%N.
Definition cake : str := [55356; 57218]%N.

Definition partyRecord : EmojiData.t :=
  EmojiData.mk party [lit "party"; lit "happy birthday"] (lit "celebration").

Definition emojiDatabase : list EmojiData.t :=
  [ EmojiData.mk grinning [lit "happy"; lit "smile"] (lit "smileys");
    partyRecord;
    EmojiData.mk cake [lit "birthday"; lit "cake"] (lit "celebration") ].

(** Modelled from the spec: the construction of the keyword index, which
    lives in the data module [@/data/emojiDatabase]. For each record in
    turn, each of its keywords is put in lower case and the symbol of the
    record is added to the entry of that keyword, the entry being created
    when absent. *)
Fixpoint addSymbol (k e : str) (idx : list (str * list str))
  : list (str * list str) :=
  match idx with
  | [] => [(k, [e])]
  | (k', es) :: idx' =>
      if decide (k' = k)
      then (k', if decide (e ∈ es) then es else es ++ [e]) :: idx'
      else (k', es) :: addSymbol k e idx'
  end.

Definition buildIndex (db : list EmojiData.t) : list (str * list str) :=
  foldl (fun idx data =>
           foldl (fun idx k => addSymbol (toLowerCase k) (EmojiData.emoji data) idx)
             idx (EmojiData.keywords data))
    [] db.

Definition emojiKeywordIndex : list (str * list str) :=
  Eval vm_compute in buildIndex emojiDatabase.

Definition predictEmojisForWord :=
  predictEmojisForWord toLowerCase emojiKeywordIndex.
Definition predictEmojisForSentence :=
  predictEmojisForSentence toLowerCase emojiDatabase emojiKeywordIndex.







(** [n] times the token [t], then the tokens [u] and [v]. *)
Definition manyTokens (n : nat) : str :=
  mjoin (replicate n (lit "t ")) ++ lit "u v".

End Sample.

(** ** The component EmojiPredictor

    [src/components/EmojiPredictor.tsx].  The component is modelled as a
    state machine: the state holds the six [useState] cells and, for
    [typingTimeoutRef], the timer that is armed, if any, together with the
    text its callback has captured.  An event is a change of the text
    area, a click on a symbol, a click on the clear button, or the timer
    firing; after a handler has changed [inputText], React runs the clean
    up of the previous effect (which clears the timer) and then the
    effect again.  [selectionStart] is what the text area reports when
    the effect runs, [None] when the reference is not attached.  What is
    drawn from the state is outside the model. *)

Module EmojiPredictor.

Record State := mkState {
  inputText : str;
  currentWordEmojis : list str;
  sentenceEmojis : list str;
  isTyping : bool;
  showSentencePrediction : bool;
  selectedEmojis : list str;
  typingTimeout : option str
}.

(** The state after the component is mounted: the first run of the effect
    finds an empty text and leaves the initial values as they are. *)
Definition initial : State := mkState [] [] [] false false [] None.

(** [getCurrentWord]: the last of the words before the cursor; [|| ""]
    turns a missing or empty word into the empty string. *)
Definition getCurrentWord (text : str) (cursorPosition : Z) : str :=
  let beforeCursor := slice0 text cursorPosition in
  let words := split beforeCursor in
  default [] (last words).

(** [textareaRef.current?.selectionStart || inputText.length]: a selection
    start of [0] is falsy, like a missing one. *)
Definition cursorPosition (selectionStart : option nat) (inputText : str) : Z :=
  match selectionStart with
  | Some (S n) => Z.of_nat (S n)
  | _ => Z.of_nat (length inputText)
  end.

Section Handlers.
Variable toLowerCase : str -> str.
Variable emojiDatabase : list EmojiData.t.
Variable emojiKeywordIndex : list (str * list str).

(** One run of the effect on [inputText], after the clean up of the
    previous run. *)
Definition effect (selectionStart : option nat) (s : State) : option State :=
  let text := inputText s in
  if bool_decide (trim text = []) then
    Some (mkState text [] (sentenceEmojis s) (isTyping s) false
            (selectedEmojis s) None)
  else
    let currentWord :=
      getCurrentWord text (cursorPosition selectionStart text) in
    if 2 <=? len currentWord then
      predictions ←
        predictEmojisForWord toLowerCase emojiKeywordIndex currentWord 6;
      Some (mkState text predictions (sentenceEmojis s) true false
              (selectedEmojis s) (Some text))
    else
      Some (mkState text [] (sentenceEmojis s) (isTyping s) false
              (selectedEmojis s) (Some text)).

(** The callback of the timer, five seconds after the effect armed it. *)
Definition timeout (s : State) : option State :=
  match typingTimeout s with
  | None => Some s
  | Some text =>
      if 0 <? len (trim text) then
        sentencePredictions ←
          predictEmojisForSentence toLowerCase emojiDatabase emojiKeywordIndex
            text 12;
        Some (mkState (inputText s) [] sentencePredictions false true
                (selectedEmojis s) None)
      else
        Some (mkState (inputText s) (currentWordEmojis s) (sentenceEmojis s)
                false (showSentencePrediction s) (selectedEmojis s) None)
  end.

(** [onChange]: [setInputText(e.target.value)]; the effect runs when the
    text has changed. *)
Definition setInputText (text : str) (selectionStart : option nat) (s : State)
  : option State :=
  if decide (text = inputText s) then Some s
  else effect selectionStart
         (mkState text (currentWordEmojis s) (sentenceEmojis s) (isTyping s)
            (showSentencePrediction s) (selectedEmojis s) (typingTimeout s)).

Definition handleEmojiClick (emoji : str) (selectionStart : option nat)
  (s : State) : option State :=
  let s' := mkState (inputText s ++ emoji) (currentWordEmojis s)
              (sentenceEmojis s) (isTyping s) (showSentencePrediction s)
              (selectedEmojis s ++ [emoji]) (typingTimeout s) in
  if decide (emoji = []) then Some s' else effect selectionStart s'.

Definition clearAll (selectionStart : option nat) (s : State) : option State :=
  let s' := mkState [] [] [] (isTyping s) false [] (typingTimeout s) in
  if decide (inputText s = []) then Some s' else effect selectionStart s'.

Inductive Event :=
  | Change (text : str) (selectionStart : option nat)
  | Click (emoji : str) (selectionStart : option nat)
  | Clear (selectionStart : option nat)
  | Timeout.

Definition step (e : Event) (s : State) : option State :=
  match e with
  | Change text selectionStart => setInputText text selectionStart s
  | Click emoji selectionStart => handleEmojiClick emoji selectionStart s
  | Clear selectionStart => clearAll selectionStart s
  | Timeout => timeout s
  end.

(** The state after a sequence of events, from the mounted component. *)
Definition run (events : list Event) : option State :=
  forEachM step events initial.

(** What holds of the state between two events. *)
Definition Inv (s : State) : Prop :=
  (length (currentWordEmojis s) <= 6)%nat /\ NoDup (currentWordEmojis s) /\
  (length (sentenceEmojis s) <= 12)%nat /\ NoDup (sentenceEmojis s) /\
  (showSentencePrediction s = true ->
   currentWordEmojis s = [] /\ typingTimeout s = None) /\
  (forall text, typingTimeout s = Some text ->
                text = inputText s /\ trim text <> []) /\
  (trim (inputText s) = [] ->
   currentWordEmojis s = [] /\ typingTimeout s = None /\
   showSentencePrediction s = false).

End Handlers.
End EmojiPredictor.

(** ** The vocabulary of the specification *)

(** The symbols of [emojis] that are not yet claimed, each once, in the
    order they are met. *)
Fixpoint unclaimed (seen : gset str) (emojis : list str) : list str :=
  match emojis with
  | [] => []
  | e :: es =>
      if decide (e ∈ seen) then unclaimed seen es
      else e :: unclaimed (seen ∪ {[e]}) es
  end.

(** Every not-yet-claimed symbol of [emojis] becomes a candidate with the
    score [sc] and the kind [mt]. *)
Definition award {num} (sc : num) (mt : MatchType) (acc : Acc num)
  (emojis : list str) : Acc num :=
  mkAcc (matches acc ++ ((fun e => mkMatch e sc mt) <$> unclaimed (seenEmojis acc) emojis))
        (seenEmojis acc ∪ list_to_set emojis).

(** The fuzzy strategy in the words of the specification: a keyword whose
    length differs from the length of the word by at most 2 and whose edit
    distance to the word is at most 2 awards [80 - 10 * distance]. *)
Definition fuzzyAward (normalizedWord : str) (acc : Acc Z)
  (entry : str * list str) : Acc Z :=
  let '(keyword, emojis) := entry in
  let distance := lev normalizedWord keyword in
  if (Z.abs (len keyword - len normalizedWord) <=? 2) && (distance <=? 2)%nat
  then award (80 - 10 * Z.of_nat distance) fuzzy acc emojis
  else acc.

(** The strategy is only evaluated if fewer than [maxResults] candidates
    exist so far. *)
Definition fuzzySpec (emojiKeywordIndex : list (str * list str))
  (normalizedWord : str) (maxResults : Z) (acc : Acc Z) : Acc Z :=
  if Z.of_nat (length (matches acc)) <? maxResults
  then foldl (fuzzyAward normalizedWord) acc emojiKeywordIndex
  else acc.

(** What a keyword contributes to the score of its record when it is
    compared with the sentence in the form [form], in the words of the
    specification: 80 when the sentence contains it, [similarity * 60]
    when the similarity exceeds 0.3, nothing otherwise. *)
Definition contributionOf (toLowerCase : str -> str)
  (normalizedSentence form : str) : option float :=
  if includes normalizedSentence form then Some 80%float
  else
    let similarity := cosineSimilarity toLowerCase normalizedSentence form in
    if (threshold <? similarity)%float then Some (similarity * 60)%float
    else None.

(** The contribution of a keyword as the claim states it: the keyword is
    compared as the record has it. *)
Definition keywordContributionAsStated (toLowerCase : str -> str)
  (normalizedSentence keyword : str) : option float :=
  contributionOf toLowerCase normalizedSentence keyword.

(** The contribution of a keyword compared in lower case. *)
Definition keywordContribution (toLowerCase : str -> str)
  (normalizedSentence keyword : str) : option float :=
  contributionOf toLowerCase normalizedSentence (toLowerCase keyword).

(** The running sum of a list of contributions. *)
Definition runningSum (contributions : list float) : float :=
  foldl PrimFloat.add 0%float contributions.

(** The phase-2 step on one record in the words of the specification,
    for a given contribution of the keywords: a record not yet claimed
    with at least one matched keyword is claimed with the mean of the
    contributions of its matched keywords. *)
Definition recordSpecWith (contribution : str -> option float)
  (acc : Acc float) (data : EmojiData.t) : Acc float :=
  let contributions := omap contribution (EmojiData.keywords data) in
  let matchedKeywordCount := length contributions in
  if decide (EmojiData.emoji data ∈ seenEmojis acc) then acc
  else if decide (matchedKeywordCount = 0%nat) then acc
  else mkAcc
         (matches acc ++
            [mkMatch (EmojiData.emoji data)
               (runningSum contributions / Z2F (Z.of_nat matchedKeywordCount))%float
               semantic])
         (seenEmojis acc ∪ {[EmojiData.emoji data]}).

Definition recordSpec (toLowerCase : str -> str) (normalizedSentence : str)
  : Acc float -> EmojiData.t -> Acc float :=
  recordSpecWith (keywordContribution toLowerCase normalizedSentence).

Definition recordSpecAsStated (toLowerCase : str -> str)
  (normalizedSentence : str) : Acc float -> EmojiData.t -> Acc float :=
  recordSpecWith (keywordContributionAsStated toLowerCase normalizedSentence).


(** The entry the loops of [levenshteinDistance] put at row [i], column
    [j] of the matrix: the distance between the first [j] code units of
    [str1] and the first [i] of [str2], read from their ends. *)
Definition cell (str1 str2 : str) (i j : nat) : nat :=
  lev (rev (take j str1)) (rev (take i str2)).

Definition fullRow (str1 str2 : str) (i : nat) : list nat :=
  cell str1 str2 i <$> seq 0 (S (length str1)).

(** The matrix once the rows before [i] are filled. *)
Definition RowsInv (str1 str2 : str) (i : nat) (m : Matrix) : Prop :=
  length m = S (length str2) /\
  (forall r, (r < i)%nat -> m !! r = Some (fullRow str1 str2 r)) /\
  (forall r, (i <= r <= length str2)%nat -> m !! r = Some [r]).

(** The matrix once row [i] is filled up to column [j]. *)
Definition RowInv (str1 str2 : str) (i j : nat) (m : Matrix) : Prop :=
  length m = S (length str2) /\
  (forall r, (r < i)%nat -> m !! r = Some (fullRow str1 str2 r)) /\
  m !! i = Some (cell str1 str2 i <$> seq 0 j) /\
  (forall r, (i < r <= length str2)%nat -> m !! r = Some [r]).

(** No symbol is claimed twice, and every claimed symbol is recorded in
    [seenEmojis]. *)
Definition AccOk {num} (acc : Acc num) : Prop :=
  NoDup (emoji <$> matches acc) /\
  forall e, e ∈ emoji <$> matches acc -> e ∈ seenEmojis acc.

(** The symbols [E] of the exact pass carry the score 100, every other
    claimed symbol carries less, and [E] is claimed. *)
Definition ExactFirst (E : list str) (acc : Acc Z) : Prop :=
  Forall (fun m => (emoji m ∈ E ∧ score m = 100) ∨
                   (¬ emoji m ∈ E ∧ score m < 100)) (matches acc) /\
  forall e, e ∈ E -> e ∈ seenEmojis acc.

(** The magnitude of [m * 2^e]: the position of its leading bit. *)
Definition mag (m : positive) (e : Z) : Z := Zpos (digits2_pos m) + e.

(** A positive binary64 value that is at least 1, or plus infinity. *)
Definition AtLeastOne (x : spec_float) : Prop :=
  x = S754_infinity false \/
  exists m e, x = S754_finite false m e /\ 1 <= mag m e.

(** A double that is [+0], or at least 1, or plus infinity. *)
Definition NonNeg (x : spec_float) : Prop := x = S754_zero false \/ AtLeastOne x.

(** The sum of [h] over a list of words, in the integers. *)
Definition sumOver (h : str -> Z) (l : list str) : Z :=
  foldr (fun w s => h w + s) 0 l.

(** The sum of [h] over a list of words as the source computes it: in
    binary64, accumulated from [a] in the order of the list. *)
Definition fsumOver (h : str -> Z) (l : list str) (a : float) : float :=
  foldl (fun sum w => (sum + Z2F (h w))%float) a l.

(** The body of the fuzzy pass without its test on the lengths. *)
Definition fuzzyEntryUnfiltered (normalizedWord : str) (entry : str * list str)
  (acc : Acc Z) : option (Acc Z) :=
  let '(keyword, emojis) := entry in
  distance ← levenshteinDistance normalizedWord keyword;
  if (distance <=? 2)%nat
  then Some (claimAll (80 - Z.of_nat distance * 10) fuzzy acc emojis)
  else Some acc.

(** The rule of each strategy of the word matcher: when the keyword
    awards the score [sc] with the kind [mt] to the symbols under it. *)
Definition Strategy (normalizedWord keyword : str) (sc : Z) (mt : MatchType)
  : Prop :=
  match mt with
  | exact => keyword = normalizedWord /\ sc = 100
  | prefix =>
      startsWith keyword normalizedWord = true /\ keyword <> normalizedWord /\
      sc = 90 - (len keyword - len normalizedWord) * 2
  | fuzzy =>
      Z.abs (len keyword - len normalizedWord) <= 2 /\
      exists d, levenshteinDistance normalizedWord keyword = Some d /\
                (d <= 2)%nat /\ sc = 80 - Z.of_nat d * 10
  | semantic =>
      includes keyword normalizedWord = true /\ keyword <> normalizedWord /\
      3 <= len normalizedWord /\ sc = 70
  end.

(** A candidate comes from an entry of the index, by the rule of its
    kind. *)
Definition Provenance (emojiKeywordIndex : list (str * list str))
  (normalizedWord : str) (m : EmojiMatch Z) : Prop :=
  exists keyword emojis,
    (keyword, emojis) ∈ emojiKeywordIndex /\ emoji m ∈ emojis /\
    Strategy normalizedWord keyword (score m) (matchType m).

(** The candidates start with the symbols of the exact pass, each once
    with the score 100, and go on with candidates of a lower score. *)
Definition ExactPrefix (E : list str) (acc : Acc Z) : Prop :=
  exists rest,
    matches acc = ((fun e => mkMatch e 100 exact) <$> unclaimed ∅ E) ++ rest /\
    Forall (fun m => score m <= 88) rest.

(** [seenEmojis] holds exactly the symbols of [matches]. *)
Definition SeenExact {num} (acc : Acc num) : Prop :=
  forall e, e ∈ seenEmojis acc <-> e ∈ emoji <$> matches acc.

(** * Properties *)

(** ** The embedding at work *)

Example split_runs : split (lit " a  b ") = [lit ""; lit "a"; lit "b"; lit ""].
Proof. reflexivity. Qed.

Example split_empty : split (lit "") = [lit ""].
Proof. reflexivity. Qed.

Example trim_both_ends : trim (lit "  a b ") = lit "a b".
Proof. reflexivity. Qed.

Example slice0_negative_end : slice0 [1; 2; 3] (-1) = [1; 2] /\ slice0 [1; 2; 3] 5 = [1; 2; 3].
Proof. split; reflexivity. Qed.

Example sort_is_stable :
  sort (fun a b : Z * Z => 0 <? b.1 - a.1) [(1, 0); (3, 1); (1, 2); (3, 3)]
  = [(3, 1); (3, 3); (1, 0); (1, 2)].
Proof. reflexivity. Qed.

Example levenshteinDistance_kitten :
  levenshteinDistance (lit "kitten") (lit "sitting") = Some 3%nat.
Proof. vm_compute. reflexivity. Qed.

Example word_exact_scenario :
  Sample.predictEmojisForWord (lit "happy") 5 = Some [Sample.grinning; Sample.party].
Proof. vm_compute. reflexivity. Qed.

Example word_fuzzy_scenario :
  Sample.predictEmojisForWord (lit "hapy") 5 = Some [Sample.grinning].
Proof. vm_compute. reflexivity. Qed.

Example word_short_rejection :
  Sample.predictEmojisForWord (lit "a") 5 = Some [] /\
  Sample.predictEmojisForWord (lit "") 5 = Some [].
Proof. split; reflexivity. Qed.

Example sentence_blank_rejection :
  Sample.predictEmojisForSentence (lit "   ") 10 = Some [].
Proof. vm_compute. reflexivity. Qed.

Example sentence_scenario :
  Sample.predictEmojisForSentence (lit "Happy birthday to you") 10
  = Some [Sample.grinning; Sample.party; Sample.cake].
Proof. vm_compute. reflexivity. Qed.

Example cosineSimilarity_value :
  cosineSimilarity Sample.toLowerCase (lit "happy birthday to you")
    (lit "happy birthday") = 0x1.6a09e667f3bccp-1%float.
Proof. vm_compute. reflexivity. Qed.

Example category_scenario :
  getEmojisByCategory Sample.emojiDatabase (lit "celebration") 3
  = [Sample.party; Sample.cake].
Proof. vm_compute. reflexivity. Qed.

(** ** The edit distance *)

Section Lev.
Implicit Types a b : str.

Lemma lev_nil_l b : lev [] b = length b.
Proof. by destruct b. Qed.

Lemma lev_nil_r a : lev a [] = length a.
Proof. by destruct a. Qed.

Lemma lev_cons x a y b :
  lev (x :: a) (y :: b) =
    if decide (x = y) then lev a b
    else S (Nat.min (lev a b) (Nat.min (lev a (y :: b)) (lev (x :: a) b))).
Proof. reflexivity. Qed.

Lemma lev_sym a b : lev a b = lev b a.
Proof.
  revert b. induction a as [|x a IHa]; intros b.
  - by rewrite lev_nil_l, lev_nil_r.
  - induction b as [|y b IHb]; [done|].
    rewrite !lev_cons, IHb, (IHa b), (IHa (y :: b)).
    destruct (decide (x = y)), (decide (y = x)); try congruence. lia.
Qed.

Lemma lev_diag a : lev a a = 0%nat.
Proof.
  induction a as [|x a IH]; [done|].
  rewrite lev_cons. by destruct (decide (x = x)).
Qed.

(** Putting one more character in front of the first string moves the
    distance by at most one, in either direction. *)
Lemma lev_cons_l_bounds n : forall a b x,
  (length a + length b <= n)%nat ->
  (lev a b <= S (lev (x :: a) b))%nat /\ (lev (x :: a) b <= S (lev a b))%nat.
Proof.
  induction n as [|n IH]; intros a b x Hn.
  - destruct a, b; simpl in Hn; try lia. simpl. lia.
  - destruct b as [|y b].
    + rewrite !lev_nil_r. simpl. lia.
    + simpl in Hn.
      destruct (IH b a y) as [Hb1 Hb2]; [lia|].
      destruct (IH a b x) as [Ha1 Ha2]; [lia|].
      rewrite (lev_sym b a), (lev_sym (y :: b) a) in Hb1, Hb2.
      rewrite lev_cons. destruct (decide (x = y)); lia.
Qed.

Lemma lev_insert_head a b x : (lev a b <= S (lev (x :: a) b))%nat.
Proof. by eapply (lev_cons_l_bounds _ a b x). Qed.

Lemma lev_delete_head a b x : (lev (x :: a) b <= S (lev a b))%nat.
Proof. by eapply (lev_cons_l_bounds _ a b x). Qed.

Lemma lev_substitute_head a b x y : (lev (x :: a) b <= S (lev (y :: a) b))%nat.
Proof.
  induction b as [|z b IH]; [rewrite !lev_nil_r; simpl; lia|].
  pose proof (lev_delete_head a (z :: b) x).
  pose proof (lev_delete_head b (x :: a) z) as Hz.
  rewrite (lev_sym (z :: b)), (lev_sym b) in Hz.
  assert (lev (x :: a) (z :: b) <= S (lev a b))%nat.
  { rewrite lev_cons. destruct (decide (x = z)); lia. }
  rewrite (lev_cons y). destruct (decide (y = z)); lia.
Qed.

Lemma lev_cons_congr a a' c :
  (forall b, (lev a b <= S (lev a' b))%nat) ->
  forall b, (lev (c :: a) b <= S (lev (c :: a') b))%nat.
Proof.
  intros H b. induction b as [|y b IH].
  - rewrite !lev_nil_r. specialize (H []). rewrite !lev_nil_r in H.
    simpl. lia.
  - rewrite !lev_cons. pose proof (H b). pose proof (H (y :: b)).
    destruct (decide (c = y)); lia.
Qed.

Lemma lev_step a a' : edit_step a a' -> forall b, (lev a b <= S (lev a' b))%nat.
Proof.
  intros [l1 l2 x|l1 l2 x|l1 l2 x y];
    (induction l1 as [|c l1 IH]; simpl; [|by apply lev_cons_congr]); intros b.
  - apply lev_insert_head.
  - apply lev_delete_head.
  - apply lev_substitute_head.
Qed.

(** No sequence of edits is shorter than [lev]. *)
Lemma lev_lower n a b : edit_path n a b -> (lev a b <= n)%nat.
Proof.
  induction 1 as [a|n a b c Hs _ IH]; [by rewrite lev_diag|].
  pose proof (lev_step _ _ Hs c). lia.
Qed.

Lemma edit_step_cons c a b : edit_step a b -> edit_step (c :: a) (c :: b).
Proof.
  intros [l1 l2 x|l1 l2 x|l1 l2 x y].
  - apply (edit_insert (c :: l1)).
  - apply (edit_delete (c :: l1)).
  - apply (edit_substitute (c :: l1)).
Qed.

Lemma edit_path_cons_congr c n a b :
  edit_path n a b -> edit_path n (c :: a) (c :: b).
Proof.
  induction 1; econstructor; eauto using edit_step_cons.
Qed.

Lemma edit_path_insert_all b : edit_path (length b) [] b.
Proof.
  induction b as [|y b IH]; [constructor|]. simpl.
  eapply edit_path_cons; [apply (edit_insert [] [] y)|].
  by apply edit_path_cons_congr.
Qed.

Lemma edit_path_delete_all a : edit_path (length a) a [].
Proof.
  induction a as [|x a IH]; [constructor|]. simpl.
  eapply edit_path_cons; [apply (edit_delete [] a x)|]. done.
Qed.

(** [lev] edits do it. *)
Lemma lev_path a b : edit_path (lev a b) a b.
Proof.
  revert b. induction a as [|x a IHa]; intros b.
  - rewrite lev_nil_l. apply edit_path_insert_all.
  - induction b as [|y b IHb]; [rewrite lev_nil_r; apply edit_path_delete_all|].
    rewrite lev_cons. destruct (decide (x = y)) as [->|Hxy].
    + apply edit_path_cons_congr, IHa.
    + destruct (Nat.min_spec (lev a (y :: b)) (lev (x :: a) b)) as [[_ E1]|[_ E1]];
        rewrite E1;
        match goal with |- context [Nat.min ?u ?v] =>
          destruct (Nat.min_spec u v) as [[_ E2]|[_ E2]]; rewrite E2 end.
      * eapply edit_path_cons; [apply (edit_substitute [] a x y)|].
        apply edit_path_cons_congr, IHa.
      * eapply edit_path_cons; [apply (edit_delete [] a x)|]. apply IHa.
      * eapply edit_path_cons; [apply (edit_substitute [] a x y)|].
        apply edit_path_cons_congr, IHa.
      * eapply edit_path_cons; [apply (edit_insert [] (x :: a) y)|].
        by apply edit_path_cons_congr.
Qed.

Lemma edit_step_rev a b : edit_step a b -> edit_step (rev a) (rev b).
Proof.
  intros [l1 l2 x|l1 l2 x|l1 l2 x y];
    rewrite ?rev_app_distr; simpl; rewrite <- ?app_assoc; simpl; constructor.
Qed.

Lemma edit_path_rev n a b : edit_path n a b -> edit_path n (rev a) (rev b).
Proof. induction 1; econstructor; eauto using edit_step_rev. Qed.

Lemma lev_rev a b : lev (rev a) (rev b) = lev a b.
Proof.
  apply Nat.le_antisymm.
  - apply lev_lower, edit_path_rev, lev_path.
  - rewrite <- (rev_involutive a), <- (rev_involutive b) at 1.
    apply lev_lower, edit_path_rev, lev_path.
Qed.
End Lev.

Arguments lev : simpl never.

(** ** The matrix of levenshteinDistance *)

(** Total correctness of a counted loop: an invariant that every
    iteration re-establishes, without raising, holds when the loop ends. *)
Lemma forEachM_seq_inv {S} (body : nat -> S -> option S)
    (P : nat -> S -> Prop) n : forall start s,
  P start s ->
  (forall k s, (start <= k < start + n)%nat -> P k s ->
               exists s', body k s = Some s' /\ P (Datatypes.S k) s') ->
  exists s', forEachM body (seq start n) s = Some s' /\ P (start + n)%nat s'.
Proof.
  induction n as [|n IH]; intros start s HP Hbody; simpl.
  - exists s. by rewrite Nat.add_0_r.
  - destruct (Hbody start s) as (s1 & -> & HP1); [lia|done|]. simpl.
    destruct (IH (Datatypes.S start) s1) as (s2 & -> & HP2); [done|..].
    + intros k s' Hk. apply Hbody. lia.
    + exists s2. split; [done|]. by rewrite <- Nat.add_succ_comm.
Qed.

Lemma bind_Some_l {A B} (x : A) (f : A -> option B) : Some x ≫= f = f x.
Proof. reflexivity. Qed.

Lemma mget_Some (m : Matrix) i j row v :
  m !! i = Some row -> row !! j = Some v -> mget m i j = Some v.
Proof. intros Hm Hr. unfold mget. rewrite Hm. simpl. exact Hr. Qed.

Lemma store_append {A} (arr : list A) v :
  store arr (length arr) v = Some (arr ++ [v]).
Proof.
  unfold store. destruct (decide _); [lia|]. by destruct (decide _).
Qed.

Lemma store_inside {A} (arr : list A) i v :
  (i < length arr)%nat -> store arr i v = Some (<[i:=v]> arr).
Proof. intros. unfold store. by destruct (decide _). Qed.

Lemma mset_append (m : Matrix) i row v :
  m !! i = Some row ->
  mset m i (length row) v = Some (<[i:=row ++ [v]]> m).
Proof.
  intros Hrow. unfold mset. rewrite Hrow. simpl.
  rewrite store_append. simpl.
  apply store_inside. by eapply lookup_lt_Some.
Qed.

Section Matrix.
Variables str1 str2 : str.



Lemma cell_0_l j : (j <= length str1)%nat -> cell str1 str2 0 j = j.
Proof.
  intros. unfold cell. rewrite take_0. simpl. rewrite lev_nil_r.
  rewrite length_rev, length_take. lia.
Qed.

Lemma cell_0_r i : (i <= length str2)%nat -> cell str1 str2 i 0 = i.
Proof.
  intros. unfold cell. rewrite take_0. simpl. rewrite lev_nil_l.
  rewrite length_rev, length_take. lia.
Qed.

Lemma cell_S i j c1 c2 :
  str1 !! j = Some c1 -> str2 !! i = Some c2 ->
  cell str1 str2 (S i) (S j) =
    if decide (c2 = c1) then cell str1 str2 i j
    else Nat.min (cell str1 str2 i j + 1)
           (Nat.min (cell str1 str2 (S i) j + 1) (cell str1 str2 i (S j) + 1)).
Proof.
  intros H1 H2. unfold cell.
  rewrite (take_S_r _ _ _ H1), (take_S_r _ _ _ H2), !rev_unit, lev_cons.
  destruct (decide (c1 = c2)), (decide (c2 = c1)); try congruence. lia.
Qed.



Lemma fullRow_lookup i j :
  (j <= length str1)%nat -> fullRow str1 str2 i !! j = Some (cell str1 str2 i j).
Proof.
  intros. unfold fullRow. rewrite list_lookup_fmap, lookup_seq_lt; [done|lia].
Qed.

Lemma levCell_inv i j m :
  (i < length str2)%nat -> (j < length str1)%nat ->
  RowInv str1 str2 (S i) (S j) m ->
  exists m', levCell str1 str2 (S i) (S j) m = Some m' /\ RowInv str1 str2 (S i) (S (S j)) m'.
Proof.
  intros Hi Hj (Hlen & Hdone & Hrow & Htodo).
  destruct (lookup_lt_is_Some_2 str1 j Hj) as [c1 Hc1].
  destruct (lookup_lt_is_Some_2 str2 i Hi) as [c2 Hc2].
  assert (Ha : mget m i j = Some (cell str1 str2 i j)).
  { eapply mget_Some; [apply Hdone; lia|apply fullRow_lookup; lia]. }
  assert (Hb : mget m (S i) j = Some (cell str1 str2 (S i) j)).
  { eapply mget_Some; [exact Hrow|].
    rewrite list_lookup_fmap, lookup_seq_lt; [done|lia]. }
  assert (Hc : mget m i (S j) = Some (cell str1 str2 i (S j))).
  { eapply mget_Some; [apply Hdone; lia|apply fullRow_lookup; lia]. }
  assert (Hset : forall v, mset m (S i) (S j) v
                   = Some (<[S i:=(cell str1 str2 (S i) <$> seq 0 (S j)) ++ [v]]> m)).
  { intros v. rewrite <- (mset_append m (S i) _ v Hrow).
    by rewrite length_fmap, length_seq. }
  exists (<[S i:=cell str1 str2 (S i) <$> seq 0 (S (S j))]> m). split.
  - rewrite (seq_S (S j)), fmap_app, Nat.add_0_l.
    change (cell str1 str2 (S i) <$> [S j]) with [cell str1 str2 (S i) (S j)].
    rewrite (cell_S i j c1 c2 Hc1 Hc2), <- Hset.
    unfold levCell, charAt.
    replace (S i - 1)%nat with i by lia. replace (S j - 1)%nat with j by lia.
    rewrite Hc1, Hc2, Ha, Hb, Hc.
    by destruct (decide (Some c2 = Some c1)) as [E|E], (decide (c2 = c1));
      try congruence.
  - split; [by rewrite length_insert|]. split; [|split].
    + intros r Hr. rewrite list_lookup_insert_ne; [|lia]. by apply Hdone.
    + rewrite list_lookup_insert_eq; [done|lia].
    + intros r Hr. rewrite list_lookup_insert_ne; [|lia]. by apply Htodo.
Qed.

Lemma levRow_inv i m :
  (i < length str2)%nat -> RowsInv str1 str2 (S i) m ->
  exists m', levRow str1 str2 (S i) m = Some m' /\ RowsInv str1 str2 (S (S i)) m'.
Proof.
  intros Hi (Hlen & Hdone & Htodo). unfold levRow.
  destruct (forEachM_seq_inv (levCell str1 str2 (S i)) (RowInv str1 str2 (S i))
              (length str1) 1 m) as (m' & Hm' & Hinv).
  - split; [done|]. split; [done|]. split.
    + rewrite Htodo; [|lia]. simpl. by rewrite cell_0_r; [|lia].
    + intros r Hr. apply Htodo. lia.
  - intros [|k] s Hk Hs; [lia|]. apply levCell_inv; [done|lia|done].
  - exists m'. split; [done|]. destruct Hinv as (Hlen' & Hdone' & Hrow' & Htodo').
    split; [done|]. split.
    + intros r Hr. destruct (decide (r = S i)) as [->|]; [done|].
      apply Hdone'. lia.
    + intros r Hr. apply Htodo'. lia.
Qed.

Lemma initRows_inv :
  exists m, forEachM (fun i m => store m i [i]) (seq 0 (S (length str2))) [] = Some m
            /\ m = (fun r => [r]) <$> seq 0 (S (length str2)).
Proof.
  apply (forEachM_seq_inv (fun i m => store m i [i])
           (fun k m => m = (fun r => [r]) <$> seq 0 k)); [done|].
  intros k s _ ->. eexists. split.
  - rewrite <- (store_append ((fun r => [r]) <$> seq 0 k) [k]).
    by rewrite length_fmap, length_seq.
  - by rewrite seq_S, fmap_app.
Qed.

Lemma firstRow_inv m :
  m = (fun r => [r]) <$> seq 0 (S (length str2)) ->
  exists m', forEachM (fun j m => mset m 0 j j) (seq 0 (S (length str1))) m = Some m'
             /\ RowsInv str1 str2 1 m'.
Proof.
  intros ->.
  destruct (forEachM_seq_inv (fun j m => mset m 0 j j)
              (fun j m => length m = S (length str2) /\
                          m !! 0%nat = Some (seq 0 (Nat.max 1 j)) /\
                          forall r, (1 <= r <= length str2)%nat -> m !! r = Some [r])
              (S (length str1)) 0
              ((fun r => [r]) <$> seq 0 (S (length str2))))
    as (m' & Hm' & Hlen & Hrow & Htodo).
  - split; [by rewrite length_fmap, length_seq|]. split; [done|].
    intros r Hr. rewrite list_lookup_fmap, lookup_seq_lt; [done|lia].
  - intros j s _ (Hlen & Hrow & Htodo).
    exists (<[0%nat:=seq 0 (S j)]> s). split.
    + destruct j as [|j].
      * unfold mset. rewrite Hrow. simpl. apply store_inside. lia.
      * rewrite seq_S, Nat.add_0_l.
        rewrite <- (mset_append s 0 (seq 0 (S j)) (S j)).
        -- by rewrite length_seq.
        -- rewrite Hrow. by rewrite Nat.max_r; [|lia].
    + split; [by rewrite length_insert|]. split.
      * rewrite list_lookup_insert_eq; [|lia]. by rewrite Nat.max_r; [|lia].
      * intros r Hr. rewrite list_lookup_insert_ne; [|lia]. by apply Htodo.
  - exists m'. split; [done|]. split; [done|]. split.
    + intros r Hr. assert (r = 0%nat) as -> by lia. rewrite Hrow.
      f_equal. unfold fullRow. rewrite Nat.add_0_l, Nat.max_r; [|lia].
      apply list_eq. intros k. rewrite (list_lookup_fmap (cell str1 str2 0)).
      destruct (decide (k < S (length str1))%nat).
      * rewrite lookup_seq_lt; [|done]. simpl. by rewrite cell_0_l; [|lia].
      * by rewrite lookup_seq_ge; [|lia].
    + intros r Hr. by apply Htodo.
Qed.

(** The loops never read an undefined entry, and the entry returned is
    the edit distance. *)
Lemma levenshteinDistance_lev : levenshteinDistance str1 str2 = Some (lev str1 str2).
Proof.
  unfold levenshteinDistance.
  destruct initRows_inv as (m0 & -> & Hm0). rewrite bind_Some_l.
  destruct (firstRow_inv m0 Hm0) as (m1 & -> & Hm1). rewrite bind_Some_l.
  destruct (forEachM_seq_inv (levRow str1 str2) (RowsInv str1 str2) (length str2) 1 m1)
    as (m2 & -> & Hlen & Hdone & _); [done|..].
  - intros [|k] s Hk Hs; [lia|]. apply levRow_inv; [lia|done].
  - rewrite bind_Some_l.
    erewrite mget_Some; [|apply Hdone; lia|apply fullRow_lookup; lia].
    unfold cell. by rewrite !firstn_all, lev_rev.
Qed.
End Matrix.

(** ** Sorting and slicing *)

Section SortFacts.
Context {A : Type} (after : A -> A -> bool).

Lemma insertSorted_perm x l : insertSorted after x l ≡ₚ x :: l.
Proof.
  induction l as [|y l IH]; simpl; [done|].
  destruct (after x y); [|done]. rewrite IH. apply Permutation_swap.
Qed.

Lemma sort_perm l : sort after l ≡ₚ l.
Proof.
  induction l as [|x l IH]; simpl; [done|].
  by rewrite insertSorted_perm, IH.
Qed.

Lemma length_sort l : length (sort after l) = length l.
Proof. by rewrite sort_perm. Qed.

(** When "does not have to come after" is a total preorder, the result
    is sorted by it. *)
Context (R : A -> A -> Prop).
Hypothesis R_trans : forall a b c, R a b -> R b c -> R a c.
Hypothesis R_after : forall a b, after a b = true -> R b a.
Hypothesis R_not_after : forall a b, after a b = false -> R a b.

Lemma insertSorted_sorted x l :
  StronglySorted R l -> StronglySorted R (insertSorted after x l).
Proof.
  induction 1 as [|y l Hl IH Hy]; simpl; [by repeat constructor|].
  destruct (after x y) eqn:E.
  - constructor; [done|]. rewrite insertSorted_perm. constructor; auto.
  - constructor; [by constructor|]. constructor; [auto|].
    eapply Forall_impl; [exact Hy|]. intros z. apply R_trans. auto.
Qed.

Lemma sort_sorted l : StronglySorted R (sort after l).
Proof.
  induction l; simpl; [constructor|]. by apply insertSorted_sorted.
Qed.
End SortFacts.

Lemma StronglySorted_lookup_lt {A} (R : A -> A -> Prop) l i j a b :
  StronglySorted R l -> (i < j)%nat -> l !! i = Some a -> l !! j = Some b -> R a b.
Proof.
  intros Hl. revert i j. induction Hl as [|x l _ IH Hx]; intros i j Hij Hi Hj.
  - by rewrite lookup_nil in Hi.
  - destruct j as [|j]; [lia|]. destruct i as [|i]; simpl in *.
    + injection Hi as ->. rewrite Forall_forall in Hx. apply Hx.
      by eapply list_elem_of_lookup_2.
    + apply (IH i j); [lia|done..].
Qed.

Lemma slice0_take {A} (arr : list A) e :
  exists k, slice0 arr e = take k arr.
Proof. by eexists. Qed.

Lemma length_slice0_nonneg {A} (arr : list A) e :
  0 <= e -> Z.of_nat (length (slice0 arr e)) <= e.
Proof.
  intros He. unfold slice0. destruct (Z.ltb_spec e 0); [lia|].
  rewrite length_take. lia.
Qed.

Lemma slice0_negative {A} (arr : list A) k :
  (0 < k)%nat -> slice0 arr (- Z.of_nat k) = take (length arr - k) arr.
Proof.
  intros Hk. unfold slice0. destruct (Z.ltb_spec (- Z.of_nat k) 0); [|lia].
  f_equal. lia.
Qed.

(** ** The accumulator *)

Section AccFacts.
Context {num : Type}.
Implicit Types acc : Acc num.

Lemma AccOk_empty : AccOk (@emptyAcc num).
Proof. split; [constructor|]. intros e He. by apply elem_of_nil in He. Qed.

Lemma claim_unseen sc mt acc e :
  e ∉ seenEmojis acc ->
  claim sc mt acc e = mkAcc (matches acc ++ [mkMatch e sc mt]) (seenEmojis acc ∪ {[e]}).
Proof. intros. unfold claim. by destruct (decide _). Qed.

Lemma claim_seen sc mt acc e : e ∈ seenEmojis acc -> claim sc mt acc e = acc.
Proof. intros. unfold claim. by destruct (decide _). Qed.

Lemma claim_AccOk sc mt acc e : AccOk acc -> AccOk (claim sc mt acc e).
Proof.
  intros [Hnd Hseen]. unfold claim. destruct (decide _) as [|Hne]; [done|].
  split; simpl.
  - rewrite fmap_app. apply NoDup_app. split; [done|]. split.
    + intros x Hx Hx'. apply list_elem_of_singleton in Hx' as ->. auto.
    + apply NoDup_singleton.
  - intros x. rewrite fmap_app, elem_of_app, elem_of_union. simpl.
    rewrite list_elem_of_singleton.
    intros [Hx| ->]; [left; by apply Hseen|right; by apply elem_of_singleton].
Qed.

(** A property of the accumulator that every push keeps is kept by
    [claimAll]; [Q] is what is known of the symbols pushed. *)
Lemma claimAll_inv (P : Acc num -> Prop) (Q : str -> Prop) sc mt emojis :
  (forall acc e, P acc -> Q e -> P (claim sc mt acc e)) ->
  Forall Q emojis -> forall acc, P acc -> P (claimAll sc mt acc emojis).
Proof.
  intros Hstep. unfold claimAll.
  induction 1 as [|e emojis He _ IH]; intros acc Hacc; simpl; auto.
Qed.

Lemma claimAll_seen sc mt emojis : forall acc e,
  e ∈ emojis -> e ∈ seenEmojis (claimAll sc mt acc emojis).
Proof.
  assert (Hmono : forall l acc e, e ∈ seenEmojis acc ->
                            e ∈ seenEmojis (claimAll sc mt acc l)).
  { unfold claimAll. induction l as [|x l IH]; intros acc e He; simpl; [done|].
    apply IH. unfold claim. destruct (decide _); [done|]. simpl. set_solver. }
  unfold claimAll in *.
  induction emojis as [|x l IH]; intros acc e He; simpl.
  - by apply elem_of_nil in He.
  - apply elem_of_cons in He as [->|He]; [|by apply IH].
    apply Hmono. unfold claim. destruct (decide _); [done|]. simpl. set_solver.
Qed.
End AccFacts.

(** A loop over a list whose body never raises and keeps [P]. *)
Lemma forEachM_inv {S I} (body : I -> S -> option S) (P : S -> Prop) l :
  (forall i s, i ∈ l -> P s -> exists s', body i s = Some s' /\ P s') ->
  forall s, P s -> exists s', forEachM body l s = Some s' /\ P s'.
Proof.
  induction l as [|i l IH]; intros Hbody s Hs; simpl; [by eauto|].
  destruct (Hbody i s) as (s1 & -> & Hs1); [by left|done|]. simpl.
  apply IH; [|done]. intros i' s' Hi'. apply Hbody. by right.
Qed.

Lemma foldl_inv {S I} (body : S -> I -> S) (P : S -> Prop) l :
  (forall i s, i ∈ l -> P s -> P (body s i)) ->
  forall s, P s -> P (foldl body s l).
Proof.
  induction l as [|i l IH]; intros Hbody s Hs; simpl; [done|].
  apply IH; [|apply Hbody; [by left|done]].
  intros i' s' Hi'. apply Hbody. by right.
Qed.

(** ** The passes of predictEmojisForWord *)

Lemma startsWith_length s p :
  startsWith s p = true -> (length p <= length s)%nat.
Proof.
  revert s. induction p as [|c p IH]; intros [|d s]; simpl; try done; try lia.
  intros [_ H]%andb_prop. apply IH in H. lia.
Qed.

Lemma startsWith_same_length s p :
  startsWith s p = true -> length s = length p -> s = p.
Proof.
  revert s. induction p as [|c p IH]; intros [|d s]; simpl; try done.
  intros [Hc H]%andb_prop Hl. apply bool_decide_eq_true in Hc as ->.
  f_equal. apply IH; [done|lia].
Qed.

(** [get] is defined exactly where [has] answers true, so the non-null
    assertion of the exact pass holds. *)
Lemma indexHas_indexGet (idx : list (str * list str)) k :
  indexGet idx k = if indexHas idx k then Some (exactSymbols idx k) else None.
Proof.
  unfold exactSymbols, indexGet, indexHas.
  induction idx as [|[k' v] idx IH]; simpl; [done|].
  destruct (decide (k' = k)) as [->|Hne].
  - rewrite (bool_decide_eq_true_2 (k = k)); [|done].
    rewrite bool_decide_eq_true_2; [done|by left].
  - rewrite (bool_decide_eq_false_2 (k' = k)); [|done].
    rewrite IH. repeat case_bool_decide; try done.
    + exfalso. apply H0. by right.
    + exfalso. apply elem_of_cons in H0 as [?|?]; [congruence|done].
Qed.

Section WordFacts.
Variable toLowerCase : str -> str.
Variable emojiKeywordIndex : list (str * list str).


Lemma exactPass_eq w acc :
  exactPass emojiKeywordIndex w acc
  = Some (claimAll 100 exact acc (exactSymbols emojiKeywordIndex w)).
Proof.
  unfold exactPass. rewrite indexHas_indexGet.
  destruct (indexHas emojiKeywordIndex w) eqn:E; [done|].
  unfold exactSymbols. by rewrite indexHas_indexGet, E.
Qed.

Lemma indexSymbols_entry keyword emojis e :
  (keyword, emojis) ∈ emojiKeywordIndex -> e ∈ emojis ->
  e ∈ indexSymbols emojiKeywordIndex.
Proof.
  intros Hin He. unfold indexSymbols. apply list_elem_of_join.
  exists emojis. split; [done|]. apply list_elem_of_fmap.
  by exists (keyword, emojis).
Qed.

Lemma exactSymbols_index w e :
  e ∈ exactSymbols emojiKeywordIndex w -> e ∈ indexSymbols emojiKeywordIndex.
Proof.
  unfold exactSymbols, indexGet.
  destruct (find _ _) as [[k es]|] eqn:E; simpl; [|by intros ?%elem_of_nil].
  apply find_some in E as [Hin _]. apply list_elem_of_In in Hin.
  by apply (indexSymbols_entry k).
Qed.

Section Invariant.
(** [P] is kept by every push of a later pass: such a push carries a
    symbol of the index and a score of at most 88. *)
Variable P : Acc Z -> Prop.
Hypothesis P_claim :
  forall sc mt acc e,
    sc <= 88 -> e ∈ indexSymbols emojiKeywordIndex -> P acc ->
    P (claim sc mt acc e).

Lemma claimAll_P sc mt acc keyword emojis :
  sc <= 88 -> (keyword, emojis) ∈ emojiKeywordIndex -> P acc ->
  P (claimAll sc mt acc emojis).
Proof.
  intros Hsc Hin. apply claimAll_inv with (Q := fun e => e ∈ emojis).
  - intros acc' e Hacc' He. apply P_claim; [done| |done].
    by eapply indexSymbols_entry.
  - by apply Forall_forall.
Qed.

Lemma prefixPass_inv w acc : P acc -> P (prefixPass emojiKeywordIndex w acc).
Proof.
  apply foldl_inv. intros [keyword emojis] s Hin Hs. simpl.
  destruct (startsWith keyword w) eqn:Hsw; simpl; [|done].
  destruct (bool_decide (keyword = w)) eqn:Hne; simpl; [done|].
  apply bool_decide_eq_false in Hne.
  apply (claimAll_P _ _ _ keyword); [|done..]. unfold len.
  pose proof (startsWith_length _ _ Hsw).
  assert (length keyword <> length w).
  { intros Hl. apply Hne. by apply startsWith_same_length. }
  lia.
Qed.

Lemma fuzzyPass_inv w maxResults acc :
  P acc ->
  exists acc', fuzzyPass emojiKeywordIndex w maxResults acc = Some acc' /\ P acc'.
Proof.
  intros Hacc. unfold fuzzyPass.
  destruct (_ <? _); [|by eauto].
  apply forEachM_inv; [|done].
  intros [keyword emojis] s Hin Hs. simpl.
  destruct (_ <=? 2); [|by eauto].
  rewrite levenshteinDistance_lev. simpl.
  destruct (_ <=? 2)%nat; [|by eauto].
  eexists. split; [done|]. apply (claimAll_P _ _ _ keyword); [lia|done..].
Qed.

Lemma semanticPass_inv w maxResults acc :
  P acc -> P (semanticPass emojiKeywordIndex w maxResults acc).
Proof.
  intros Hacc. unfold semanticPass.
  destruct (_ && _); [|done].
  apply foldl_inv; [|done]. intros [keyword emojis] s Hin Hs. simpl.
  destruct (_ && _); [|done]. by apply (claimAll_P _ _ _ keyword).
Qed.

Lemma wordCandidates_inv w maxResults :
  P (claimAll 100 exact emptyAcc (exactSymbols emojiKeywordIndex w)) ->
  exists acc, wordCandidates emojiKeywordIndex w maxResults = Some acc /\ P acc.
Proof.
  intros H1. unfold wordCandidates.
  rewrite exactPass_eq, bind_Some_l.
  destruct (fuzzyPass_inv w maxResults _ (prefixPass_inv w _ H1))
    as (acc3 & -> & H3).
  rewrite bind_Some_l. eexists. split; [done|]. by apply semanticPass_inv.
Qed.

(** The word matcher returns: either nothing, or the ranking of an
    accumulator that satisfies [P]. *)
Lemma predictEmojisForWord_inv word maxResults :
  P (claimAll 100 exact emptyAcc
       (exactSymbols emojiKeywordIndex (trim (toLowerCase word)))) ->
  predictEmojisForWord toLowerCase emojiKeywordIndex word maxResults = Some [] \/
  exists acc,
    predictEmojisForWord toLowerCase emojiKeywordIndex word maxResults
      = Some (rank (matches acc) maxResults) /\ P acc.
Proof.
  intros H1. unfold predictEmojisForWord.
  destruct (_ || _); [by left|]. right.
  destruct (wordCandidates_inv (trim (toLowerCase word)) maxResults)
    as (acc & -> & Hacc); [done|].
  exists acc. by rewrite bind_Some_l.
Qed.
End Invariant.

End WordFacts.

(** ** The ranking: sort, slice, project *)

Section Ranking.
Context {num : Type} (after : EmojiMatch num -> EmojiMatch num -> bool).
Implicit Types ms : list (EmojiMatch num).

Lemma ranking_sublist ms e :
  emoji <$> slice0 (sort after ms) e `sublist_of` emoji <$> sort after ms.
Proof. unfold slice0. apply fmap_sublist, sublist_take. Qed.

Lemma ranking_elem_of ms e x :
  x ∈ emoji <$> slice0 (sort after ms) e -> x ∈ emoji <$> ms.
Proof.
  intros Hx. rewrite <- (sort_perm after ms).
  eapply elem_of_sublist; [done|apply ranking_sublist].
Qed.

Lemma ranking_NoDup ms e :
  NoDup (emoji <$> ms) -> NoDup (emoji <$> slice0 (sort after ms) e).
Proof.
  intros Hnd. eapply sublist_NoDup; [|apply ranking_sublist].
  by rewrite (sort_perm after ms).
Qed.

Lemma ranking_length ms e :
  0 <= e -> Z.of_nat (length (emoji <$> slice0 (sort after ms) e)) <= e.
Proof. intros. rewrite length_fmap. by apply length_slice0_nonneg. Qed.
End Ranking.

(** ** The passes of predictEmojisForSentence *)

Section SentenceFacts.
Variable toLowerCase : str -> str.
Variable emojiDatabase : list EmojiData.t.
Variable emojiKeywordIndex : list (str * list str).

(** The word matcher only returns symbols of the index. *)
Lemma predictEmojisForWord_symbols word maxResults :
  exists r,
    predictEmojisForWord toLowerCase emojiKeywordIndex word maxResults = Some r /\
    Forall (fun e => e ∈ indexSymbols emojiKeywordIndex) r.
Proof.
  pose (P := fun acc : Acc Z =>
               Forall (fun e => e ∈ indexSymbols emojiKeywordIndex)
                 (emoji <$> matches acc)).
  assert (Hclaim : forall sc mt acc e,
             e ∈ indexSymbols emojiKeywordIndex -> P acc -> P (claim sc mt acc e)).
  { intros sc mt acc e He Hacc. unfold P, claim in *.
    destruct (decide _); [done|]. simpl. rewrite fmap_app.
    apply Forall_app. split; [done|]. by repeat constructor. }
  destruct (predictEmojisForWord_inv toLowerCase emojiKeywordIndex P)
    with (word := word) (maxResults := maxResults) as [Hr|(acc & Hr & Hacc)].
  - intros sc mt acc e _. apply Hclaim.
  - apply claimAll_inv with (Q := fun e => e ∈ indexSymbols emojiKeywordIndex).
    + intros acc e Hacc He. by apply Hclaim.
    + apply Forall_forall. intros e. apply exactSymbols_index.
    + constructor.
  - eexists. split; [exact Hr|]. constructor.
  - eexists. split; [exact Hr|]. apply Forall_forall. intros e He.
    apply ranking_elem_of in He. unfold P in Hacc.
    rewrite Forall_forall in Hacc. auto.
Qed.

Lemma recordStep_cases normalizedSentence acc data :
  recordStep toLowerCase normalizedSentence acc data = acc \/
  exists sc, recordStep toLowerCase normalizedSentence acc data
             = claim sc semantic acc (EmojiData.emoji data).
Proof.
  unfold recordStep. destruct (foldl _ _ _) as [sc matched].
  destruct (bool_decide (0 < matched)%nat); simpl; [|by left].
  case_bool_decide; simpl; [by left|]. right. eexists.
  by rewrite claim_unseen.
Qed.

Section Invariant.
(** [P] is kept by every push of a symbol of the knowledge base. *)
Variable P : Acc float -> Prop.
Hypothesis P_claim :
  forall sc mt acc e,
    e ∈ indexSymbols emojiKeywordIndex ++ (EmojiData.emoji <$> emojiDatabase) ->
    P acc -> P (claim sc mt acc e).

Lemma wordStep_inv word acc :
  P acc ->
  exists acc', wordStep toLowerCase emojiKeywordIndex word acc = Some acc' /\ P acc'.
Proof.
  intros Hacc. unfold wordStep.
  destruct (predictEmojisForWord_symbols word 3) as (r & -> & Hr).
  rewrite bind_Some_l. eexists. split; [done|].
  eapply claimAll_inv; [|exact Hr|done].
  intros acc' e Hacc' He. apply P_claim; [|done]. apply elem_of_app. by left.
Qed.

Lemma sentenceCandidates_inv normalizedSentence :
  P emptyAcc ->
  exists acc,
    sentenceCandidates toLowerCase emojiDatabase emojiKeywordIndex
      normalizedSentence = Some acc /\ P acc.
Proof.
  intros H0. unfold sentenceCandidates.
  destruct (forEachM_inv (wordStep toLowerCase emojiKeywordIndex) P
              (split normalizedSentence)) with (s := @emptyAcc float)
    as (acc1 & -> & H1); [|done|].
  { intros word s _. apply wordStep_inv. }
  rewrite bind_Some_l. eexists. split; [done|].
  apply foldl_inv; [|done]. intros data s Hdata Hs.
  destruct (recordStep_cases normalizedSentence s data) as [->|[sc ->]]; [done|].
  apply P_claim; [|done]. apply elem_of_app. right.
  apply list_elem_of_fmap. by exists data.
Qed.

Lemma predictEmojisForSentence_inv sentence maxResults :
  P emptyAcc ->
  exists acc,
    predictEmojisForSentence toLowerCase emojiDatabase emojiKeywordIndex
      sentence maxResults
      = Some (emoji <$> slice0 (sort afterF (matches acc)) maxResults) /\ P acc.
Proof.
  intros H0. unfold predictEmojisForSentence.
  destruct (_ || _).
  - exists emptyAcc. split; [|done]. unfold slice0. simpl. by rewrite take_nil.
  - destruct (sentenceCandidates_inv (trim (toLowerCase sentence)) H0)
      as (acc & -> & Hacc).
    exists acc. by rewrite bind_Some_l.
Qed.
End Invariant.
End SentenceFacts.

(** ** The award of a pass *)

Lemma unclaimed_elem_of emojis : forall seen e,
  e ∈ unclaimed seen emojis <-> e ∈ emojis /\ e ∉ seen.
Proof.
  induction emojis as [|x es IH]; intros seen e; simpl.
  - split; [by intros ?%elem_of_nil|by intros [?%elem_of_nil _]].
  - destruct (decide (x ∈ seen)).
    + rewrite IH, elem_of_cons. split; [by intuition|].
      intros [[->|?] ?]; by intuition.
    + rewrite !elem_of_cons, IH, elem_of_union, elem_of_singleton.
      destruct (decide (e = x)) as [->|]; by intuition.
Qed.

Lemma unclaimed_NoDup emojis : forall seen, NoDup (unclaimed seen emojis).
Proof.
  induction emojis as [|x es IH]; intros seen; simpl; [constructor|].
  destruct (decide (x ∈ seen)); [done|]. constructor; [|done].
  rewrite unclaimed_elem_of, elem_of_union, elem_of_singleton. by intuition.
Qed.

(** [emojis.forEach] with the guarded push is the award. *)
Lemma claimAll_award {num} (sc : num) mt emojis : forall acc,
  claimAll sc mt acc emojis = award sc mt acc emojis.
Proof.
  unfold claimAll, award.
  induction emojis as [|e es IH]; intros [ms seen]; simpl.
  - rewrite app_nil_r. f_equal. apply set_eq. intros x.
    rewrite elem_of_union, elem_of_empty. by intuition.
  - unfold claim at 2. simpl. destruct (decide (e ∈ seen)) as [He|He].
    + rewrite IH. simpl. f_equal. apply set_eq. intros x.
      rewrite !elem_of_union, elem_of_singleton.
      destruct (decide (x = e)) as [->|]; by intuition.
    + rewrite IH. simpl. rewrite <- app_assoc. f_equal. apply set_eq. intros x.
      rewrite !elem_of_union, elem_of_singleton. by intuition.
Qed.

Lemma fuzzyPass_fuzzySpec (emojiKeywordIndex : list (str * list str))
    normalizedWord maxResults acc :
  fuzzyPass emojiKeywordIndex normalizedWord maxResults acc
    = Some (fuzzySpec emojiKeywordIndex normalizedWord maxResults acc).
Proof.
  unfold fuzzyPass, fuzzySpec. destruct (_ <? _); [|done].
  revert acc. induction emojiKeywordIndex as [|[keyword emojis] idx IH];
    intros acc; simpl; [done|].
  rewrite <- IH. rewrite levenshteinDistance_lev.
  destruct (_ <=? 2); simpl; [|done].
  destruct (_ <=? 2)%nat; simpl; [|done].
  rewrite claimAll_award. do 3 f_equal. lia.
Qed.

(** ** The score of a record *)






(** On keywords in lower case, as the data model has them, the scan of
    the claim as stated is the scan of the code. *)
Lemma recordSpec_as_stated toLowerCase normalizedSentence acc data :
  Forall (fun keyword => toLowerCase keyword = keyword) (EmojiData.keywords data) ->
  recordSpec toLowerCase normalizedSentence acc data
  = recordSpecAsStated toLowerCase normalizedSentence acc data.
Proof.
  intros Hlow. unfold recordSpec, recordSpecAsStated, recordSpecWith.
  replace (omap (keywordContribution toLowerCase normalizedSentence)
             (EmojiData.keywords data))
    with (omap (keywordContributionAsStated toLowerCase normalizedSentence)
            (EmojiData.keywords data)); [done|].
  induction Hlow as [|k ks Hk _ IH]; [done|]. cbn [omap list_omap].
  unfold keywordContribution at 1, keywordContributionAsStated at 1.
  by rewrite Hk, IH.
Qed.

(** ** Binary64 arithmetic on values that are at least 1 *)

Lemma digits2_pos_log2 m : Zpos (digits2_pos m) = Z.log2 (Zpos m) + 1.
Proof.
  assert (H : digits2_pos m = Pos.size m) by (induction m; simpl; congruence).
  rewrite H. destruct m; simpl; lia.
Qed.

Lemma fexp_normal e : -1021 <= e -> fexp prec emax e = e - 53.
Proof. unfold fexp, SpecFloat.emin, prec, emax. lia. Qed.

Lemma fexp_mono e1 e2 : e1 <= e2 -> fexp prec emax e1 <= fexp prec emax e2.
Proof. unfold fexp. lia. Qed.

Lemma shr_1_m mrs : 0 <= shr_m mrs -> shr_m (shr_1 mrs) = Z.div2 (shr_m mrs).
Proof. destruct mrs as [[|[p|p|]|p] r s]; simpl; try done; lia. Qed.

Lemma iter_shr_1_m p : forall mrs,
  0 <= shr_m mrs -> shr_m (SpecFloat.iter_pos shr_1 p mrs) = Z.shiftr (shr_m mrs) (Zpos p).
Proof.
  assert (Hnn : forall mrs, 0 <= shr_m mrs -> 0 <= shr_m (shr_1 mrs)).
  { intros mrs H. rewrite shr_1_m by done. by apply Z.div2_nonneg. }
  assert (Hit : forall p mrs,
             (forall mrs, 0 <= shr_m mrs ->
                shr_m (SpecFloat.iter_pos shr_1 p mrs) = Z.shiftr (shr_m mrs) (Zpos p)) ->
             0 <= shr_m mrs -> 0 <= shr_m (SpecFloat.iter_pos shr_1 p mrs)).
  { intros q mrs IH H. rewrite IH by done. by apply Z.shiftr_nonneg. }
  induction p as [p IH|p IH|]; intros mrs H; simpl.
  - rewrite IH by auto. rewrite IH by auto. rewrite shr_1_m by done.
    rewrite Z.div2_spec, !Z.shiftr_shiftr by lia. f_equal. lia.
  - rewrite IH by auto. rewrite IH by auto.
    rewrite !Z.shiftr_shiftr by lia. f_equal. lia.
  - rewrite shr_1_m by done. apply Z.div2_spec.
Qed.

Lemma shr_record_of_loc_m m l : shr_m (shr_record_of_loc m l) = m.
Proof. by destruct l as [|[]]. Qed.

(** Shifting to the working precision keeps a value of magnitude at least
    1 positive, with the same magnitude. *)
Lemma shr_fexp_mag mx ex l :
  1 <= mag mx ex ->
  exists m1 e1 mrs,
    shr_fexp prec emax (Zpos mx) ex l = (mrs, e1) /\
    shr_m mrs = Zpos m1 /\ mag m1 e1 = mag mx ex /\
    (ex <= fexp prec emax (mag mx ex) -> e1 = fexp prec emax (mag mx ex)).
Proof.
  intros Hmag. unfold shr_fexp, shr. simpl Zdigits2.
  fold (mag mx ex). rewrite fexp_normal by lia.
  destruct (mag mx ex - 53 - ex) as [|p|p] eqn:Hn.
  - exists mx, ex, (shr_record_of_loc (Zpos mx) l).
    rewrite shr_record_of_loc_m. repeat split; auto. lia.
  - pose proof (digits2_pos_log2 mx) as Hd. unfold mag in *.
    assert (Hp : Zpos p <= Z.log2 (Zpos mx)) by lia.
    assert (Hs : 0 < Z.shiftr (Zpos mx) (Zpos p)).
    { rewrite Z.shiftr_div_pow2 by lia.
      apply Z.div_str_pos. split; [lia|].
      eapply Z.le_trans; [|apply (Z.log2_spec (Zpos mx)); lia].
      apply Z.pow_le_mono_r; lia. }
    destruct (Z.shiftr (Zpos mx) (Zpos p)) as [|m1|m1] eqn:Hm1; try lia.
    exists m1, (ex + Zpos p), (SpecFloat.iter_pos shr_1 p (shr_record_of_loc (Zpos mx) l)).
    split; [done|]. split.
    { rewrite iter_shr_1_m; rewrite shr_record_of_loc_m; [done|lia]. }
    split; [|lia].
    rewrite (digits2_pos_log2 m1), <- Hm1, Z.log2_shiftr by lia. lia.
  - exists mx, ex, (shr_record_of_loc (Zpos mx) l).
    rewrite shr_record_of_loc_m. repeat split; auto. lia.
Qed.

Lemma round_nearest_even_pos m l :
  exists m', round_nearest_even (Zpos m) l = Zpos m' /\
             Zpos m <= Zpos m' <= Zpos m + 1.
Proof.
  destruct l as [|[]]; cbn [round_nearest_even];
    try (exists m; split; [done|lia]).
  - destruct (Z.even (Zpos m)); [exists m; split; [done|lia]|].
    exists (m + 1)%positive. split; [done|lia].
  - exists (m + 1)%positive. split; [done|lia].
Qed.

Lemma mag_mono m m' e : Zpos m <= Zpos m' -> mag m e <= mag m' e.
Proof.
  intros H. unfold mag. rewrite !digits2_pos_log2.
  pose proof (Z.log2_le_mono _ _ H). lia.
Qed.

(** Rounding a positive value of magnitude at least 1 gives a value of
    magnitude at least 1 or overflows; the result is a valid binary64
    when the mantissa came with enough bits. *)
Lemma binary_round_aux_big sx mx ex lx :
  1 <= mag mx ex ->
  binary_round_aux prec emax sx (Zpos mx) ex lx = S754_infinity sx \/
  exists m e,
    binary_round_aux prec emax sx (Zpos mx) ex lx = S754_finite sx m e /\
    1 <= mag m e /\
    (ex <= fexp prec emax (mag mx ex) -> bounded prec emax m e = true).
Proof.
  intros Hmag. unfold binary_round_aux.
  destruct (shr_fexp_mag mx ex lx Hmag) as (m1 & e1 & mrs1 & -> & Hm1 & Hmag1 & He1).
  rewrite Hm1.
  destruct (round_nearest_even_pos m1 (loc_of_shr_record mrs1)) as (m2 & -> & Hm2).
  assert (Hmag2 : mag m1 e1 <= mag m2 e1) by (apply mag_mono; lia).
  destruct (shr_fexp_mag m2 e1 loc_Exact) as (m3 & e3 & mrs3 & -> & Hm3 & Hmag3 & He3);
    [lia|].
  rewrite Hm3. destruct (e3 <=? emax - prec) eqn:Hle; [right|by left].
  exists m3, e3. split; [done|]. split; [lia|].
  intros Hex. unfold bounded, canonical_mantissa. rewrite Hle, andb_true_r.
  apply Z.eqb_eq. fold (mag m3 e3). rewrite Hmag3. symmetry. apply He3.
  specialize (He1 Hex).
  transitivity (fexp prec emax (mag m1 e1)); [rewrite Hmag1; lia|].
  by apply fexp_mono.
Qed.

Lemma digits2_pos_iter_xO d : forall mx,
  Zpos (digits2_pos (Pos.iter xO mx d)) = Zpos (digits2_pos mx) + Zpos d.
Proof.
  induction d as [|d IH] using Pos.peano_ind; intros mx.
  - cbn [Pos.iter digits2_pos]. lia.
  - rewrite Pos.iter_succ. cbn [digits2_pos]. rewrite Pos2Z.inj_succ, IH. lia.
Qed.

Lemma shl_align_mag mx ex ex' :
  exists mz ez, shl_align mx ex ex' = (mz, ez) /\ mag mz ez = mag mx ex /\ ez <= ex'.
Proof.
  unfold shl_align. destruct (ex' - ex) as [|d|d] eqn:Hd.
  - exists mx, ex. repeat split; lia.
  - exists mx, ex. repeat split; lia.
  - exists (Pos.iter xO mx d), ex'. split; [done|]. split; [|lia].
    pose proof (digits2_pos_iter_xO d mx). unfold mag. lia.
Qed.

Lemma Z2F_big z : 1 <= z -> AtLeastOne (Prim2SF (Z2F z)).
Proof.
  intros Hz. unfold Z2F. destruct z as [|p|p]; try lia.
  unfold binary_normalize, binary_round.
  destruct (shl_align_mag p 0 (fexp prec emax (Zpos (digits2_pos p) + 0)))
    as (mz & ez & -> & Hmag & Hez).
  assert (H1 : 1 <= mag mz ez) by (unfold mag in *; lia).
  destruct (binary_round_aux_big false mz ez loc_Exact H1) as [->|(m & e & -> & Hm & Hb)].
  - rewrite Prim2SF_SF2Prim by done. by left.
  - rewrite Prim2SF_SF2Prim.
    + right. by exists m, e.
    + apply Hb. rewrite Hmag. done.
Qed.

Lemma mul_big x y :
  AtLeastOne (Prim2SF x) -> AtLeastOne (Prim2SF y) -> AtLeastOne (Prim2SF (x * y)).
Proof.
  rewrite mul_spec. unfold SF64mul.
  intros [->|(mx & ex & -> & Hx)] [->|(my & ey & -> & Hy)]; simpl; try by left.
  assert (H : 1 <= mag (mx * my) (ex + ey)).
  { unfold mag in *. rewrite !digits2_pos_log2 in *. rewrite Pos2Z.inj_mul.
    pose proof (Z.log2_mul_below (Zpos mx) (Zpos my) ltac:(lia) ltac:(lia)). lia. }
  destruct (binary_round_aux_big false (mx * my) (ex + ey) loc_Exact H)
    as [->|(m & e & -> & Hm & _)]; [by left|]. right. by exists m, e.
Qed.

Lemma div2_bounds a : 2 * Z.div2 a <= a <= 2 * Z.div2 a + 1.
Proof. rewrite (Z.div2_odd a) at 2 3. destruct (Z.odd a); simpl; lia. Qed.

Lemma sqrt_big x : AtLeastOne (Prim2SF x) -> AtLeastOne (Prim2SF (PrimFloat.sqrt x)).
Proof.
  rewrite sqrt_spec. unfold SF64sqrt.
  intros [->|(mx & ex & -> & Hx)]; [by left|]. cbn [SFsqrt].
  unfold SFsqrt_core_binary. cbn [Zdigits2]. fold (mag mx ex).
  set (e' := Z.min (fexp prec emax (Z.div2 (mag mx ex + 1))) (Z.div2 ex)).
  set (s := ex - 2 * e').
  set (m' := match s with Z0 => Zpos mx | Zpos _ => Z.shiftl (Zpos mx) s | Zneg _ => 0 end).
  pose proof (div2_bounds ex) as Hd2.
  pose proof (div2_bounds (mag mx ex + 1)) as Hd2'.
  assert (Hs : 0 <= s) by (unfold s, e'; lia).
  assert (Hm' : m' = Zpos mx * 2 ^ s).
  { unfold m'. destruct s as [|p|p] eqn:E; [lia| |lia].
    rewrite Z.shiftl_mul_pow2; lia. }
  assert (He' : e' <= Z.div2 (mag mx ex + 1) - 53).
  { unfold e', fexp, SpecFloat.emin, prec, emax. lia. }
  pose proof (Z.sqrtrem_spec m') as Hspec.
  destruct (Z.sqrtrem m') as [q r] eqn:Hqr.
  set (k := Z.max 0 (- e')).
  assert (Hq : 2 ^ k <= q).
  { pose proof (digits2_pos_log2 mx) as Hdig.
    assert (Hlow : 2 ^ (2 * k) <= m').
    { rewrite Hm'. transitivity (2 ^ Z.log2 (Zpos mx) * 2 ^ s).
      - rewrite <- Z.pow_add_r by (try apply Z.log2_nonneg; lia).
        apply Z.pow_le_mono_r; [lia|].
        pose proof (Z.log2_nonneg (Zpos mx)). unfold mag, k, s in *. lia.
      - apply Z.mul_le_mono_nonneg_r; [lia|].
        apply (Z.log2_spec (Zpos mx)). lia. }
    destruct Hspec as [Hqr' Hr]; [lia|].
    replace (2 ^ (2 * k)) with (2 ^ k * 2 ^ k) in Hlow
      by (rewrite <- Z.pow_add_r by lia; f_equal; lia).
    assert (0 < 2 ^ k) by (apply Z.pow_pos_nonneg; lia).
    assert (0 <= q) by lia.
    nia. }
  assert (Hk : 0 < 2 ^ k) by (apply Z.pow_pos_nonneg; lia).
  destruct q as [|qp|qp]; try lia.
  assert (Hmag : 1 <= mag qp e').
  { unfold mag. rewrite digits2_pos_log2.
    apply Z.log2_le_pow2 in Hq; lia. }
  destruct (binary_round_aux_big false qp e'
              (if r =? 0 then loc_Exact else loc_Inexact (if r <=? Zpos qp then Lt else Gt))
              Hmag) as [->|(m & e & -> & Hm & _)]; [by left|].
  right. by exists m, e.
Qed.

Lemma Prim2SF_zero : Prim2SF 0 = S754_zero false.
Proof. vm_compute. reflexivity. Qed.
Lemma Prim2SF_one : Prim2SF 1 = S754_finite false 4503599627370496 (-52).
Proof. vm_compute. reflexivity. Qed.
Lemma big_nonzero x : AtLeastOne (Prim2SF x) -> (x =? 0)%float = false.
Proof.
  rewrite FloatAxioms.eqb_spec, Prim2SF_zero.
  intros [->|(m & e & -> & _)]; reflexivity.
Qed.
Lemma big_ge_one x : AtLeastOne (Prim2SF x) -> (1 <=? x)%float = true.
Proof.
  rewrite FloatAxioms.leb_spec, Prim2SF_one. pose proof (Prim2SF_valid x) as Hv.
  intros [E|(m & e & E & Hm)]; rewrite E in *; [reflexivity|].
  unfold SFleb, SFcompare. cbn [valid_binary SpecFloat.valid_binary] in Hv.
  apply andb_prop in Hv as [Hc _]. unfold canonical_mantissa in Hc.
  apply Z.eqb_eq in Hc. fold (mag m e) in Hc. rewrite fexp_normal in Hc by lia.
  destruct (Z.compare_spec (-52) e) as [He|He|He]; [|reflexivity|lia].
  assert (Hd : Z.log2 (Zpos m) = 52).
  { unfold mag in *. rewrite digits2_pos_log2 in *. lia. }
  rewrite Pos.compare_cont_spec. cbn [Pos.switch_Eq].
  pose proof (Z.log2_spec (Zpos m) ltac:(lia)) as [Hs _]. rewrite Hd in Hs.
  change (2 ^ 52) with 4503599627370496 in Hs.
  destruct (Pos.compare_spec 4503599627370496 m) as [?|?|Hlt];
    [reflexivity..|].
  apply Pos2Z.pos_lt_pos in Hlt. exfalso. apply (Z.lt_irrefl (Zpos m)).
  eapply Z.lt_le_trans; [exact Hlt|exact Hs].
Qed.

(** ** Binary64 arithmetic on integers

    A double written [m * 2^e] is rounded from its value, whatever the
    number of trailing zeros of [m]; so the sum and the product of two
    integers below 2^53 are the doubles nearest to the integer sum and
    product. *)

Lemma Pos_iter_xO m d : Zpos (Pos.iter xO m d) = Zpos m * 2 ^ Zpos d.
Proof.
  induction d as [|d IH] using Pos.peano_ind.
  - cbn [Pos.iter]. lia.
  - rewrite Pos.iter_succ, Pos2Z.inj_succ, Z.pow_succ_r by lia.
    rewrite Pos2Z.inj_xO, IH. lia.
Qed.

Lemma shr_1_exact m :
  0 < m -> shr_1 (Build_shr_record (2 * m) false false) = Build_shr_record m false false.
Proof. destruct m; try lia. intros _. reflexivity. Qed.

Lemma pow2_xO p : 2 ^ Zpos p~0 = 2 ^ Zpos p * 2 ^ Zpos p.
Proof.
  replace (Zpos p~0) with (Zpos p + Zpos p) by lia. by rewrite Z.pow_add_r by lia.
Qed.

Lemma pow2_xI p : 2 ^ Zpos p~1 = 2 * (2 ^ Zpos p * 2 ^ Zpos p).
Proof.
  replace (Zpos p~1) with (1 + (Zpos p + Zpos p)) by lia.
  by rewrite !Z.pow_add_r, Z.pow_1_r by lia.
Qed.

Lemma iter_shr_1_exact p : forall m,
  0 < m ->
  SpecFloat.iter_pos shr_1 p (Build_shr_record (m * 2 ^ Zpos p) false false)
  = Build_shr_record m false false.
Proof.
  induction p as [p IH|p IH|]; intros m Hm; cbn [SpecFloat.iter_pos].
  - assert (0 < 2 ^ Zpos p) by (apply Z.pow_pos_nonneg; lia).
    replace (m * 2 ^ Zpos p~1) with (2 * ((m * 2 ^ Zpos p) * 2 ^ Zpos p))
      by (rewrite pow2_xI; lia).
    rewrite shr_1_exact by nia. rewrite IH by nia. by apply IH.
  - assert (0 < 2 ^ Zpos p) by (apply Z.pow_pos_nonneg; lia).
    replace (m * 2 ^ Zpos p~0) with ((m * 2 ^ Zpos p) * 2 ^ Zpos p)
      by (rewrite pow2_xO; lia).
    rewrite IH by nia. by apply IH.
  - rewrite Z.pow_1_r, Z.mul_comm. by apply shr_1_exact.
Qed.

Lemma iter_pos_Pos_iter {A} (f : A -> A) p : forall x,
  SpecFloat.iter_pos f p x = Pos.iter f x p.
Proof.
  induction p as [p IH|p IH|]; intros x; cbn [SpecFloat.iter_pos Pos.iter].
  - by rewrite !IH, <- !Pos.iter_swap.
  - by rewrite !IH.
  - done.
Qed.

Lemma iter_pos_add {A} (f : A -> A) p q x :
  SpecFloat.iter_pos f (p + q) x = SpecFloat.iter_pos f p (SpecFloat.iter_pos f q x).
Proof. by rewrite !iter_pos_Pos_iter, Pos.iter_add. Qed.

Lemma digits_scale (v M : positive) k :
  0 <= k -> Zpos M = Zpos v * 2 ^ k ->
  Zpos (digits2_pos M) = Zpos (digits2_pos v) + k.
Proof.
  intros Hk HM. rewrite !digits2_pos_log2, HM, Z.log2_mul_pow2 by lia. lia.
Qed.

(** Trailing zeros of the mantissa do not change what the shift to the
    working precision gives. *)
Lemma shr_fexp_scale (v M : positive) k e :
  0 <= k -> Zpos M = Zpos v * 2 ^ k ->
  0 <= fexp prec emax (Zpos (digits2_pos v) + e) - e ->
  shr_fexp prec emax (Zpos M) (e - k) loc_Exact
  = shr_fexp prec emax (Zpos v) e loc_Exact.
Proof.
  intros Hk HM Hp. unfold shr_fexp. cbn [Zdigits2 shr_record_of_loc].
  rewrite (digits_scale v M k Hk HM).
  replace (Zpos (digits2_pos v) + k + (e - k)) with (Zpos (digits2_pos v) + e) by lia.
  set (p := fexp prec emax (Zpos (digits2_pos v) + e) - e) in *.
  replace (fexp prec emax (Zpos (digits2_pos v) + e) - (e - k)) with (p + k) by lia.
  destruct k as [|k|k]; [|clear Hk|lia].
  - rewrite Z.add_0_r, Z.sub_0_r. f_equal. f_equal. lia.
  - unfold shr. destruct p as [|p|p]; [| |lia].
    + rewrite !Z.add_0_l. cbv beta iota. rewrite HM, iter_shr_1_exact by lia. f_equal. lia.
    + change (Zpos p + Zpos k) with (Zpos (p + k)). cbv beta iota.
      rewrite iter_pos_add, HM, iter_shr_1_exact by lia. f_equal. lia.
Qed.

Lemma binary_round_aux_scale sx (v M : positive) k e :
  0 <= k -> Zpos M = Zpos v * 2 ^ k ->
  0 <= fexp prec emax (Zpos (digits2_pos v) + e) - e ->
  binary_round_aux prec emax sx (Zpos M) (e - k) loc_Exact
  = binary_round_aux prec emax sx (Zpos v) e loc_Exact.
Proof.
  intros Hk HM Hp. unfold binary_round_aux. by rewrite (shr_fexp_scale v M k e).
Qed.

Lemma shl_align_value mx ex ex' :
  ex' <= ex ->
  exists mz, shl_align mx ex ex' = (mz, ex') /\ Zpos mz = Zpos mx * 2 ^ (ex - ex').
Proof.
  intros H. unfold shl_align. destruct (ex' - ex) as [|d|d] eqn:Hd; [|lia|].
  - exists mx. replace ex' with ex by lia. split; [done|].
    rewrite Z.sub_diag. lia.
  - exists (Pos.iter xO mx d). split; [done|]. rewrite Pos_iter_xO. f_equal. f_equal. lia.
Qed.

Lemma shl_align_id mx ex ex' : ex <= ex' -> shl_align mx ex ex' = (mx, ex).
Proof. intros H. unfold shl_align. destruct (ex' - ex) eqn:Hd; try done. lia. Qed.

(** [binary_round] sees the value, not the way it is written. *)
Lemma binary_round_scale sx (v M : positive) k e :
  0 <= k -> Zpos M = Zpos v * 2 ^ k ->
  binary_round prec emax sx M (e - k) = binary_round prec emax sx v e.
Proof.
  intros Hk HM. unfold binary_round.
  rewrite (digits_scale v M k Hk HM).
  replace (Zpos (digits2_pos v) + k + (e - k)) with (Zpos (digits2_pos v) + e) by lia.
  set (f := fexp prec emax (Zpos (digits2_pos v) + e)).
  destruct (Z.le_gt_cases e f) as [Hef|Hef].
  - (* no shift on either side *)
    rewrite (shl_align_id v e f Hef), (shl_align_id M (e - k) f) by lia.
    apply (binary_round_aux_scale sx v M k e Hk HM). fold f. lia.
  - destruct (shl_align_value v e f) as (v' & -> & Hv'); [lia|].
    destruct (Z.le_gt_cases (e - k) f) as [Hekf|Hekf].
    + rewrite (shl_align_id M (e - k) f Hekf).
      replace (e - k) with (f - (k - (e - f))) by lia.
      apply (binary_round_aux_scale sx v' M (k - (e - f)) f); [lia| |].
      * rewrite HM, Hv', <- Z.mul_assoc, <- Z.pow_add_r by lia. f_equal. f_equal. lia.
      * rewrite (digits_scale v v' (e - f)) by (lia || done).
        replace (Zpos (digits2_pos v) + (e - f) + f) with (Zpos (digits2_pos v) + e) by lia.
        fold f. lia.
    + destruct (shl_align_value M (e - k) f) as (M' & -> & HM'); [lia|].
      f_equal. f_equal. apply Pos2Z.inj. rewrite HM', Hv', HM.
      rewrite <- Z.mul_assoc, <- Z.pow_add_r by lia. f_equal. f_equal. lia.
Qed.

Lemma binary_round_big sx p e :
  1 <= mag p e ->
  binary_round prec emax sx p e = S754_infinity sx \/
  exists m e', binary_round prec emax sx p e = S754_finite sx m e' /\
               1 <= mag m e' /\ bounded prec emax m e' = true.
Proof.
  intros Hp. unfold binary_round.
  destruct (shl_align_mag p e (fexp prec emax (Zpos (digits2_pos p) + e)))
    as (mz & ez & -> & Hmag & Hez).
  assert (H1 : 1 <= mag mz ez) by lia.
  destruct (binary_round_aux_big sx mz ez loc_Exact H1) as [->|(m & e' & -> & Hm & Hb)];
    [by left|right].
  exists m, e'. split; [done|]. split; [done|]. apply Hb. by rewrite Hmag.
Qed.

Lemma Prim2SF_Z2F_pos p :
  Prim2SF (Z2F (Zpos p)) = binary_round prec emax false p 0.
Proof.
  unfold Z2F. cbn [binary_normalize]. apply Prim2SF_SF2Prim.
  destruct (binary_round_big false p 0) as [->|(m & e & -> & _ & Hb)]; [|done..].
  unfold mag. pose proof (digits2_pos_log2 p). pose proof (Z.log2_nonneg (Zpos p)). lia.
Qed.

(** An integer below 2^53 is a double: its mantissa is the integer,
    shifted to 53 bits. *)
Lemma binary_round_small sx (x : positive) :
  Zpos (digits2_pos x) <= 53 ->
  exists m,
    binary_round prec emax sx x 0 = S754_finite sx m (Zpos (digits2_pos x) - 53) /\
    Zpos m = Zpos x * 2 ^ (53 - Zpos (digits2_pos x)).
Proof.
  intros Hd. unfold binary_round. rewrite Z.add_0_r.
  assert (Hf : fexp prec emax (Zpos (digits2_pos x)) = Zpos (digits2_pos x) - 53).
  { apply fexp_normal. lia. }
  rewrite Hf.
  destruct (shl_align_value x 0 (Zpos (digits2_pos x) - 53)) as (m & -> & Hm); [lia|].
  exists m. split; [|rewrite Hm; f_equal; f_equal; lia].
  assert (Hdm : Zpos (digits2_pos m) = 53).
  { rewrite (digits_scale x m (0 - (Zpos (digits2_pos x) - 53))); [lia|lia|done]. }
  unfold binary_round_aux, shr_fexp. cbn [Zdigits2 shr_record_of_loc].
  rewrite Hdm. replace (53 + (Zpos (digits2_pos x) - 53)) with (Zpos (digits2_pos x)) by lia.
  rewrite Hf, Z.sub_diag. cbn [shr shr_m loc_of_shr_record round_nearest_even Zdigits2].
  rewrite Hdm. replace (53 + (Zpos (digits2_pos x) - 53)) with (Zpos (digits2_pos x)) by lia.
  rewrite Hf, Z.sub_diag. cbn [shr shr_m].
  destruct (Z.leb_spec (Zpos (digits2_pos x) - 53) (emax - prec)); [done|].
  unfold emax, prec in *. lia.
Qed.

Lemma small_digits (x : positive) : Zpos x < 2 ^ 53 -> Zpos (digits2_pos x) <= 53.
Proof.
  intros H. rewrite digits2_pos_log2.
  assert (Z.log2 (Zpos x) < 53); [|lia]. apply Z.log2_lt_pow2; lia.
Qed.

(** Adding two integers below 2^53 in binary64 gives the double nearest
    to their sum. *)
Lemma add_Z2F x y :
  0 <= x < 2 ^ 53 -> 0 <= y < 2 ^ 53 -> (Z2F x + Z2F y)%float = Z2F (x + y).
Proof.
  intros Hx Hy. apply Prim2SF_inj. rewrite add_spec.
  destruct x as [|x|x]; [| |lia].
  { change (Z2F 0) with 0%float. rewrite Prim2SF_zero, Z.add_0_l.
    destruct y as [|y|y]; [reflexivity| |lia].
    rewrite Prim2SF_Z2F_pos.
    destruct (binary_round_small false y) as (m & -> & _); [apply small_digits; lia|].
    reflexivity. }
  destruct y as [|y|y]; [| |lia].
  { change (Z2F 0) with 0%float. rewrite Prim2SF_zero, Z.add_0_r.
    rewrite Prim2SF_Z2F_pos.
    destruct (binary_round_small false x) as (m & -> & _); [apply small_digits; lia|].
    reflexivity. }
  change (Zpos x + Zpos y) with (Zpos (x + y)). rewrite !Prim2SF_Z2F_pos.
  destruct (binary_round_small false x) as (mx & -> & Hmx); [apply small_digits; lia|].
  destruct (binary_round_small false y) as (my & -> & Hmy); [apply small_digits; lia|].
  set (ex := Zpos (digits2_pos x) - 53) in *. set (ey := Zpos (digits2_pos y) - 53) in *.
  assert (Hex : ex <= 0) by (pose proof (small_digits x); lia).
  assert (Hey : ey <= 0) by (pose proof (small_digits y); lia).
  unfold SF64add, SFadd. cbv zeta.
  destruct (shl_align_value mx ex (Z.min ex ey)) as (mx' & -> & Hmx'); [lia|].
  destruct (shl_align_value my ey (Z.min ex ey)) as (my' & -> & Hmy'); [lia|].
  cbn [fst cond_Zopp]. change (Zpos mx' + Zpos my') with (Zpos (mx' + my')).
  cbn [binary_normalize].
  transitivity (binary_round prec emax false (mx' + my') (0 - (0 - Z.min ex ey)));
    [f_equal; lia|].
  apply binary_round_scale; [lia|].
  rewrite Pos2Z.inj_add, Hmx', Hmy', Hmx, Hmy.
  rewrite <- !Z.mul_assoc, <- !Z.pow_add_r by lia.
  rewrite Pos2Z.inj_add, Z.mul_add_distr_r. f_equal; f_equal; f_equal; lia.
Qed.

(** Multiplying two integers below 2^53 in binary64 gives the double
    nearest to their product. *)
Lemma mul_Z2F x y :
  0 <= x < 2 ^ 53 -> 0 <= y < 2 ^ 53 -> (Z2F x * Z2F y)%float = Z2F (x * y).
Proof.
  intros Hx Hy. apply Prim2SF_inj. rewrite mul_spec.
  destruct x as [|x|x]; [| |lia].
  { change (Z2F 0) with 0%float. rewrite Prim2SF_zero.
    destruct y as [|y|y]; [reflexivity| |lia].
    rewrite Prim2SF_Z2F_pos.
    destruct (binary_round_small false y) as (m & -> & _); [apply small_digits; lia|].
    reflexivity. }
  destruct y as [|y|y]; [| |lia].
  { rewrite Z.mul_0_r. change (Z2F 0) with 0%float. rewrite Prim2SF_zero.
    rewrite Prim2SF_Z2F_pos.
    destruct (binary_round_small false x) as (m & -> & _); [apply small_digits; lia|].
    reflexivity. }
  change (Zpos x * Zpos y) with (Zpos (x * y)). rewrite !Prim2SF_Z2F_pos.
  destruct (binary_round_small false x) as (mx & -> & Hmx); [apply small_digits; lia|].
  destruct (binary_round_small false y) as (my & -> & Hmy); [apply small_digits; lia|].
  set (dx := Zpos (digits2_pos x)) in *. set (dy := Zpos (digits2_pos y)) in *.
  assert (Hdx : 1 <= dx <= 53).
  { pose proof (small_digits x). unfold dx. lia. }
  assert (Hdy : 1 <= dy <= 53).
  { pose proof (small_digits y). unfold dy. lia. }
  unfold SF64mul, SFmul. cbn [xorb].
  assert (HM : Zpos (mx * my) = Zpos (x * y) * 2 ^ (106 - dx - dy)).
  { rewrite !Pos2Z.inj_mul, Hmx, Hmy.
    replace (106 - dx - dy) with ((53 - dx) + (53 - dy)) by lia.
    rewrite Z.pow_add_r by lia. lia. }
  set (dV := Zpos (digits2_pos (x * y))).
  assert (HdV : dx + dy - 1 <= dV).
  { unfold dV, dx, dy. rewrite !digits2_pos_log2, Pos2Z.inj_mul.
    pose proof (Z.log2_mul_below (Zpos x) (Zpos y) ltac:(lia) ltac:(lia)). lia. }
  unfold binary_round. rewrite Z.add_0_r. fold dV.
  assert (Hf : fexp prec emax dV = dV - 53) by (apply fexp_normal; lia).
  rewrite Hf.
  replace (dx - 53 + (dy - 53)) with (0 - (106 - dx - dy)) by lia.
  destruct (Z.le_gt_cases 0 (dV - 53)) as [Hbig|Hsmall].
  - rewrite (shl_align_id (x * y) 0 (dV - 53) Hbig).
    apply (binary_round_aux_scale false (x * y) (mx * my) (106 - dx - dy) 0);
      [lia|done|]. rewrite Z.add_0_r. fold dV. lia.
  - destruct (shl_align_value (x * y) 0 (dV - 53)) as (v' & -> & Hv'); [lia|].
    replace (0 - (106 - dx - dy)) with ((dV - 53) - (53 + dV - dx - dy)) by lia.
    apply (binary_round_aux_scale false v' (mx * my) (53 + dV - dx - dy) (dV - 53));
      [lia| |].
    + rewrite HM, Hv', <- Z.mul_assoc, <- Z.pow_add_r by lia. f_equal. f_equal. lia.
    + rewrite (digits_scale (x * y) v' (0 - (dV - 53))) by (lia || done). fold dV.
      replace (dV + (0 - (dV - 53)) + (dV - 53)) with dV by lia. lia.
Qed.

Lemma SFadd_finite_big mx ex my ey :
  1 <= mag mx ex ->
  AtLeastOne (SFadd prec emax (S754_finite false mx ex) (S754_finite false my ey)).
Proof.
  intros Hx. unfold SFadd. cbv zeta.
  destruct (shl_align_value mx ex (Z.min ex ey)) as (mx' & -> & Hmx'); [lia|].
  destruct (shl_align_value my ey (Z.min ex ey)) as (my' & -> & Hmy'); [lia|].
  cbn [fst cond_Zopp]. change (Zpos mx' + Zpos my') with (Zpos (mx' + my')).
  cbn [binary_normalize].
  destruct (binary_round_big false (mx' + my') (Z.min ex ey))
    as [->|(m & e & -> & Hm & _)].
  - transitivity (mag mx' (Z.min ex ey)); [|apply mag_mono; lia].
    unfold mag in *.
    rewrite (digits_scale mx mx' (ex - Z.min ex ey)) by (lia || done). lia.
  - by left.
  - right. by exists m, e.
Qed.

(** A sum of two doubles that are zero or at least 1 is zero or at least
    1, and at least 1 as soon as one of the two is. *)
Lemma add_nonneg x y :
  NonNeg (Prim2SF x) -> NonNeg (Prim2SF y) ->
  NonNeg (Prim2SF (x + y)) /\
  (AtLeastOne (Prim2SF x) \/ AtLeastOne (Prim2SF y) -> AtLeastOne (Prim2SF (x + y))).
Proof.
  rewrite add_spec. unfold SF64add.
  intros [->|[->|(mx & ex & -> & Hx)]] [->|[->|(my & ey & -> & Hy)]]; cbn [SFadd].
  - split; [by left|]. intros [[H|(m & e & H & _)]|[H|(m & e & H & _)]]; discriminate.
  - split; [right|intros _]; by left.
  - split; [right|intros _]; right; by exists my, ey.
  - split; [right|intros _]; by left.
  - split; [right|intros _]; by left.
  - split; [right|intros _]; by left.
  - split; [right|intros _]; right; by exists mx, ex.
  - split; [right|intros _]; by left.
  - pose proof (SFadd_finite_big mx ex my ey Hx) as H.
    split; [right|intros _]; exact H.
Qed.

(** ** cosineSimilarity *)

Lemma setOf_from (l : list str) : forall acc,
  NoDup acc ->
  let r := foldl (fun acc w => if decide (w ∈ acc) then acc else acc ++ [w]) acc l in
  NoDup r /\ forall x, x ∈ r <-> x ∈ acc \/ x ∈ l.
Proof.
  induction l as [|w l IH]; intros acc Hacc; simpl.
  - split; [done|]. intros x. rewrite elem_of_nil. by intuition.
  - destruct (decide (w ∈ acc)) as [Hw|Hw].
    + destruct (IH acc Hacc) as [Hnd Hel]. split; [done|].
      intros x. rewrite Hel, elem_of_cons.
      destruct (decide (x = w)) as [->|]; by intuition.
    + destruct (IH (acc ++ [w])) as [Hnd Hel].
      { apply NoDup_app. split; [done|]. split; [|apply NoDup_singleton].
        intros x Hx ->%list_elem_of_singleton. done. }
      split; [done|]. intros x.
      rewrite Hel, elem_of_app, list_elem_of_singleton, elem_of_cons. by intuition.
Qed.

Lemma setOf_NoDup l : NoDup (setOf l).
Proof. apply (setOf_from l []). constructor. Qed.

Lemma setOf_elem_of l x : x ∈ setOf l <-> x ∈ l.
Proof.
  destruct (setOf_from l [] (NoDup_nil_2)) as [_ H]. unfold setOf.
  rewrite H, elem_of_nil. by intuition.
Qed.

Lemma setOf_app_comm l1 l2 : setOf (l1 ++ l2) ≡ₚ setOf (l2 ++ l1).
Proof.
  apply NoDup_Permutation; [apply setOf_NoDup..|].
  intros x. rewrite !setOf_elem_of, !elem_of_app. by intuition.
Qed.

Lemma sumOver_perm h l l' : l ≡ₚ l' -> sumOver h l = sumOver h l'.
Proof.
  unfold sumOver. induction 1; simpl; lia.
Qed.

Lemma sumOver_ext h h' l : (forall w, h w = h' w) -> sumOver h l = sumOver h' l.
Proof. intros H. unfold sumOver. induction l; simpl; [done|]. by rewrite H, IHl. Qed.

Lemma sumOver_nonneg h l : (forall w, 0 <= h w) -> 0 <= sumOver h l.
Proof.
  intros Hh. unfold sumOver. induction l as [|w l IH]; simpl; [lia|].
  specialize (Hh w). lia.
Qed.

Lemma sumSquares_fsumOver (f : str -> Z) l :
  sumSquares (f <$> l) = fsumOver (fun w => f w * f w) l 0.
Proof.
  unfold sumSquares, fsumOver. generalize 0%float.
  induction l as [|w l IH]; intros a; simpl; [done|]. apply IH.
Qed.

Lemma dotProduct_fsumOver (f g : str -> Z) l :
  dotProduct (f <$> l) (g <$> l) = fsumOver (fun w => f w * g w) l 0.
Proof.
  unfold dotProduct, fsumOver.
  assert (H : forall pre a,
             foldl (fun sum iv =>
                      (sum + Z2F (iv.2 * default 0 ((g <$> pre ++ l) !! iv.1))%Z)%float) a
               (imap (fun i v => (length pre + i, v)%nat) (f <$> l))
             = foldl (fun sum w => (sum + Z2F (f w * g w)%Z)%float) a l).
  { induction l as [|w l IH]; intros pre a; simpl; [done|].
    rewrite Nat.add_0_r.
    rewrite (list_lookup_fmap g), lookup_app_r, Nat.sub_diag; [|lia]. simpl.
    specialize (IH (pre ++ [w]) (a + Z2F (f w * g w)%Z)%float).
    rewrite <- app_assoc in IH. simpl in IH. rewrite <- IH. f_equal.
    apply imap_ext. intros i x _. simpl. rewrite length_app. simpl. f_equal. lia. }
  exact (H [] 0%float).
Qed.

Lemma foldl_ext_elem {S I} (f g : S -> I -> S) l : forall a,
  (forall s x, x ∈ l -> f s x = g s x) -> foldl f a l = foldl g a l.
Proof.
  induction l as [|x l IH]; intros a H; simpl; [done|].
  rewrite H by left. apply IH. intros s y Hy. apply H. by right.
Qed.

(** On counts below 2^53, as all counts of tokens are, the two
    reductions are the ones of the source, which multiplies two doubles. *)
Lemma sumSquares_as_written vector :
  Forall (fun val => 0 <= val < 2 ^ 53) vector ->
  sumSquares vector
  = foldl (fun sum val => (sum + Z2F val * Z2F val)%float) 0%float vector.
Proof.
  intros Hv. unfold sumSquares. apply foldl_ext_elem. intros s x Hx.
  rewrite Forall_forall in Hv. by rewrite mul_Z2F by auto.
Qed.

Lemma dotProduct_as_written vector1 vector2 :
  Forall (fun val => 0 <= val < 2 ^ 53) vector1 ->
  Forall (fun val => 0 <= val < 2 ^ 53) vector2 ->
  dotProduct vector1 vector2
  = foldl (fun sum iv =>
             (sum + Z2F iv.2 * Z2F (default 0%Z (vector2 !! iv.1)))%float)
      0%float (imap pair vector1).
Proof.
  intros H1 H2. unfold dotProduct. apply foldl_ext_elem.
  intros s [i val] (j & y & [= -> ->] & Hj)%elem_of_lookup_imap. cbn [fst snd].
  rewrite Forall_lookup in H1, H2.
  rewrite mul_Z2F; [done|by apply (H1 j)|].
  destruct (vector2 !! j) as [z|] eqn:Hz; simpl; [by apply (H2 j)|done].
Qed.

(** Below 2^53 the binary64 sum is the integer sum. *)
Lemma fsumOver_exact h l : forall a,
  (forall w, 0 <= h w) -> 0 <= a -> a + sumOver h l < 2 ^ 53 ->
  fsumOver h l (Z2F a) = Z2F (a + sumOver h l).
Proof.
  unfold fsumOver. induction l as [|w l IH]; intros a Hh Ha Hlt; simpl in *.
  - by rewrite Z.add_0_r.
  - pose proof (Hh w). pose proof (sumOver_nonneg h l Hh). unfold sumOver in *.
    rewrite add_Z2F by lia. rewrite IH by (done || lia). f_equal. lia.
Qed.

Lemma fsumOver_zero h l : (forall w, h w = 0) -> fsumOver h l 0 = 0%float.
Proof.
  intros Hh. unfold fsumOver. induction l as [|w l IH]; simpl; [done|].
  rewrite Hh. exact IH.
Qed.

Lemma Z2F_nonneg z : 0 <= z -> NonNeg (Prim2SF (Z2F z)).
Proof.
  intros Hz. destruct (decide (z = 0)) as [->|].
  - left. vm_compute. reflexivity.
  - right. apply Z2F_big. lia.
Qed.

(** A binary64 sum of integers that are not negative is zero or at least
    1, and at least 1 as soon as one of them is. *)
Lemma fsumOver_nonneg h l : forall a,
  (forall w, 0 <= h w) -> NonNeg (Prim2SF a) ->
  NonNeg (Prim2SF (fsumOver h l a)) /\
  (AtLeastOne (Prim2SF a) \/ (exists t, t ∈ l /\ 1 <= h t) ->
   AtLeastOne (Prim2SF (fsumOver h l a))).
Proof.
  unfold fsumOver. induction l as [|w l IH]; intros a Hh Ha; simpl.
  - split; [done|]. intros [H|(t & Ht & _)]; [done|by apply elem_of_nil in Ht].
  - destruct (add_nonneg a (Z2F (h w)) Ha (Z2F_nonneg _ (Hh w))) as [Hnn Hbig].
    destruct (IH _ Hh Hnn) as [IH1 IH2]. split; [done|].
    intros [H|(t & [->|Ht]%elem_of_cons & H1)]; apply IH2.
    + left. apply Hbig. by left.
    + left. apply Hbig. right. by apply Z2F_big.
    + right. by exists t.
Qed.

Lemma float_mul_comm (x y : float) : (x * y)%float = (y * x)%float.
Proof.
  apply Prim2SF_inj. rewrite !mul_spec.
  destruct (Prim2SF x) as [sx|sx| |sx mx ex], (Prim2SF y) as [sy|sy| |sy my ey];
    simpl; try done; rewrite ?(xorb_comm sy sx); try done.
  by rewrite (Pos.mul_comm my mx), (Z.add_comm ey ex).
Qed.

Lemma splitFrom_nonempty s : forall sep tok, (1 <= length (splitFrom sep tok s))%nat.
Proof.
  induction s as [|c s IH]; intros sep tok; simpl; [lia|].
  destruct (isSpace c); [destruct sep|]; simpl; auto with lia.
Qed.

(** Splitting any string yields at least one token. *)
Lemma split_nonempty s : (1 <= length (split s))%nat.
Proof. apply splitFrom_nonempty. Qed.

Lemma countOf_nonneg word words : 0 <= countOf word words.
Proof. unfold countOf. lia. Qed.

Lemma countOf_elem_of word words : word ∈ words -> 1 <= countOf word words.
Proof.
  intros Hin. unfold countOf.
  assert (H : word ∈ filter (fun w => w = word) words)
    by (by apply list_elem_of_filter).
  destruct (filter _ words); [by apply elem_of_nil in H|]. simpl. lia.
Qed.

(** The vector of a string counts the tokens of that string, of which
    there is at least one. *)
Lemma sumSquares_counts words allWords :
  (1 <= length words)%nat -> (forall w, w ∈ words -> w ∈ allWords) ->
  AtLeastOne (Prim2SF (sumSquares ((fun word => countOf word words) <$> allWords))).
Proof.
  intros Hlen Hsub. rewrite sumSquares_fsumOver.
  destruct words as [|t words]; [simpl in Hlen; lia|].
  assert (Ht : t ∈ t :: words) by left.
  pose proof (countOf_elem_of t _ Ht) as Hc.
  apply fsumOver_nonneg.
  - intros w. pose proof (countOf_nonneg w (t :: words)). nia.
  - left. vm_compute. reflexivity.
  - right. exists t. split; [by apply Hsub|nia].
Qed.

Lemma magnitude_big vector :
  AtLeastOne (Prim2SF (sumSquares vector)) -> AtLeastOne (Prim2SF (magnitude vector)).
Proof. intros H. unfold magnitude. by apply sqrt_big. Qed.

(** The similarity is always the quotient, over the distinct words of the
    two strings, and its divisor is at least 1. *)
Lemma cosineSimilarity_quotient (toLowerCase : str -> str) (a b : str) :
  let words1 := split (toLowerCase a) in
  let words2 := split (toLowerCase b) in
  let allWords := setOf (words1 ++ words2) in
  let vector1 := (frequencyVectors toLowerCase a b).1 in
  let vector2 := (frequencyVectors toLowerCase a b).2 in
  cosineSimilarity toLowerCase a b
  = (fsumOver (fun w => (countOf w words1 * countOf w words2)%Z) allWords 0
     / (magnitude vector1 * magnitude vector2))%float /\
  AtLeastOne (Prim2SF (magnitude vector1 * magnitude vector2)).
Proof.
  intros words1 words2 allWords vector1 vector2.
  assert (B1 : AtLeastOne (Prim2SF (magnitude vector1))).
  { apply magnitude_big, sumSquares_counts; [apply split_nonempty|].
    intros w Hw. apply setOf_elem_of, elem_of_app. by left. }
  assert (B2 : AtLeastOne (Prim2SF (magnitude vector2))).
  { apply magnitude_big, sumSquares_counts; [apply split_nonempty|].
    intros w Hw. apply setOf_elem_of, elem_of_app. by right. }
  split; [|by apply mul_big].
  unfold cosineSimilarity. fold vector1 vector2.
  replace (frequencyVectors toLowerCase a b) with (vector1, vector2)
    by (by unfold vector1, vector2; destruct (frequencyVectors toLowerCase a b)).
  cbv zeta. rewrite (big_nonzero _ B1), (big_nonzero _ B2). cbn [orb].
  by unfold vector1, vector2, frequencyVectors; cbn [fst snd];
    rewrite dotProduct_fsumOver.
Qed.

(** *** Sums that stay below 2^53 *)

Lemma sumOver_zero l : sumOver (fun _ => 0) l = 0.
Proof. unfold sumOver. induction l; simpl; lia. Qed.

Lemma sumOver_add h g l :
  sumOver (fun w => h w + g w) l = sumOver h l + sumOver g l.
Proof. unfold sumOver. induction l; simpl; lia. Qed.

Lemma sumOver_indicator (x : str) l :
  NoDup l -> x ∈ l -> sumOver (fun w => if decide (x = w) then 1 else 0) l = 1.
Proof.
  assert (Hout : forall l, x ∉ l ->
            sumOver (fun w => if decide (x = w) then 1 else 0) l = 0).
  { intros l'. unfold sumOver. induction l' as [|w l' IH]; intros Hx; simpl; [done|].
    apply not_elem_of_cons in Hx as [Hne Hx]. rewrite decide_False by done.
    by rewrite IH. }
  induction 1 as [|w l Hw Hnd IH]; intros Hx; [by apply elem_of_nil in Hx|].
  change (sumOver ?h (w :: l)) with (h w + sumOver h l).
  destruct (decide (x = w)) as [->|Hne].
  - rewrite decide_True by done. by rewrite Hout.
  - rewrite decide_False by done.
    apply elem_of_cons in Hx as [?|Hx]; [done|]. by rewrite IH.
Qed.

(** The counts of the tokens of a string, over a vocabulary that holds
    them all, add up to the number of tokens. *)
Lemma sumOver_countOf words allWords :
  NoDup allWords -> (forall w, w ∈ words -> w ∈ allWords) ->
  sumOver (fun w => countOf w words) allWords = Z.of_nat (length words).
Proof.
  intros Hnd. induction words as [|x words IH]; intros Hsub.
  - unfold countOf. simpl. apply sumOver_zero.
  - rewrite (sumOver_ext _ (fun w => (if decide (x = w) then 1 else 0)
                                      + countOf w words)).
    + rewrite sumOver_add, sumOver_indicator, IH; [simpl length; lia| |done|].
      * intros w Hw. apply Hsub. by right.
      * apply Hsub. by left.
    + intros w. unfold countOf. rewrite filter_cons.
      destruct (decide (x = w)); simpl; lia.
Qed.

Lemma sumOver_mul_le h g l :
  (forall w, 0 <= h w) -> (forall w, 0 <= g w) ->
  sumOver (fun w => h w * g w) l <= sumOver h l * sumOver g l.
Proof.
  intros Hh Hg. induction l as [|w l IH].
  - unfold sumOver. simpl. lia.
  - change (sumOver ?f (w :: l)) with (f w + sumOver f l).
    pose proof (sumOver_nonneg h l Hh). pose proof (sumOver_nonneg g l Hg).
    specialize (Hh w). specialize (Hg w). cbv beta. nia.
Qed.

Lemma fsumOver_exact_0 h l :
  (forall w, 0 <= h w) -> sumOver h l < 2 ^ 53 ->
  fsumOver h l 0 = Z2F (sumOver h l).
Proof.
  intros Hh Hlt. change 0%float with (Z2F 0).
  rewrite fsumOver_exact by (done || lia). by rewrite Z.add_0_l.
Qed.

(** For strings of at most 94906265 tokens each, the sums of
    [cosineSimilarity] are the integer sums. *)
Lemma cosineSimilarity_exact (toLowerCase : str -> str) (a b : str) :
  let words1 := split (toLowerCase a) in
  let words2 := split (toLowerCase b) in
  let allWords := setOf (words1 ++ words2) in
  Z.of_nat (length words1) <= 94906265 ->
  Z.of_nat (length words2) <= 94906265 ->
  cosineSimilarity toLowerCase a b
  = (Z2F (sumOver (fun w => countOf w words1 * countOf w words2)%Z allWords)
     / (PrimFloat.sqrt
          (Z2F (sumOver (fun w => countOf w words1 * countOf w words1)%Z allWords))
        * PrimFloat.sqrt
            (Z2F (sumOver (fun w => countOf w words2 * countOf w words2)%Z allWords))))%float.
Proof.
  intros words1 words2 allWords H1 H2.
  destruct (cosineSimilarity_quotient toLowerCase a b) as [-> _]. cbv zeta.
  fold words1 words2 allWords.
  unfold magnitude, frequencyVectors. cbn [fst snd]. fold words1 words2 allWords.
  rewrite !sumSquares_fsumOver.
  assert (Hc1 : forall w, 0 <= countOf w words1) by (intros; apply countOf_nonneg).
  assert (Hc2 : forall w, 0 <= countOf w words2) by (intros; apply countOf_nonneg).
  assert (N1 : sumOver (fun w => countOf w words1) allWords = Z.of_nat (length words1)).
  { apply sumOver_countOf; [apply setOf_NoDup|].
    intros w Hw. apply setOf_elem_of, elem_of_app. by left. }
  assert (N2 : sumOver (fun w => countOf w words2) allWords = Z.of_nat (length words2)).
  { apply sumOver_countOf; [apply setOf_NoDup|].
    intros w Hw. apply setOf_elem_of, elem_of_app. by right. }
  pose proof (sumOver_mul_le _ _ allWords Hc1 Hc2) as D.
  pose proof (sumOver_mul_le _ _ allWords Hc1 Hc1) as S1.
  pose proof (sumOver_mul_le _ _ allWords Hc2 Hc2) as S2.
  rewrite N1, N2 in D. rewrite N1 in S1. rewrite N2 in S2.
  pose proof (Nat2Z.is_nonneg (length words1)).
  pose proof (Nat2Z.is_nonneg (length words2)).
  change (2 ^ 53) with 9007199254740992 in *.
  rewrite !fsumOver_exact_0; try done;
    first [ intros w; specialize (Hc1 w); specialize (Hc2 w); nia
          | change (2 ^ 53) with 9007199254740992; nia ].
Qed.

(** *** A string of many tokens *)

Lemma manyTokens_S n :
  Sample.manyTokens (S n) = 116%N :: 32%N :: Sample.manyTokens n.
Proof. reflexivity. Qed.

Lemma toLowerCase_manyTokens n :
  Sample.toLowerCase (Sample.manyTokens n) = Sample.manyTokens n.
Proof.
  induction n as [|n IH]; [reflexivity|].
  rewrite manyTokens_S. unfold Sample.toLowerCase in *.
  rewrite !fmap_cons, IH. reflexivity.
Qed.

Lemma splitFrom_manyTokens n : forall sep,
  splitFrom sep [] (Sample.manyTokens n)
  = replicate n (lit "t") ++ [lit "u"; lit "v"].
Proof.
  induction n as [|n IH]; intros sep; [by destruct sep|].
  rewrite manyTokens_S. cbn [splitFrom]. change (isSpace 116) with false.
  cbv iota. cbn [splitFrom]. change (isSpace 32) with true. cbv iota.
  by rewrite IH.
Qed.

Lemma setOf_replicate (t : str) n rest : forall acc,
  t ∈ acc ->
  foldl (fun acc w => if decide (w ∈ acc) then acc else acc ++ [w]) acc
    (replicate n t ++ rest)
  = foldl (fun acc w => if decide (w ∈ acc) then acc else acc ++ [w]) acc rest.
Proof.
  induction n as [|n IH]; intros acc Ht; [done|].
  cbn [replicate app foldl]. rewrite decide_True by done. by apply IH.
Qed.

Lemma countOf_app w l1 l2 : countOf w (l1 ++ l2) = countOf w l1 + countOf w l2.
Proof. unfold countOf. rewrite filter_app, length_app. lia. Qed.

Lemma countOf_replicate (w t : str) n :
  countOf w (replicate n t) = if decide (t = w) then Z.of_nat n else 0.
Proof.
  unfold countOf. induction n as [|n IH]; [by destruct (decide _)|].
  cbn [replicate]. rewrite filter_cons.
  destruct (decide (t = w)); cbn [length]; lia.
Qed.

(** The two frequency vectors for the long string and ["u v"], in the two
    orders of the arguments. *)
Lemma frequencyVectors_manyTokens n :
  (1 <= n)%nat ->
  frequencyVectors Sample.toLowerCase (Sample.manyTokens n) (lit "u v")
    = ([Z.of_nat n; 1; 1], [0; 1; 1]) /\
  frequencyVectors Sample.toLowerCase (lit "u v") (Sample.manyTokens n)
    = ([1; 1; 0], [1; 1; Z.of_nat n]).
Proof.
  intros Hn. unfold frequencyVectors. rewrite toLowerCase_manyTokens.
  change (Sample.toLowerCase (lit "u v")) with (lit "u v").
  change (split (lit "u v")) with [lit "u"; lit "v"].
  replace (split (Sample.manyTokens n))
    with (replicate n (lit "t") ++ [lit "u"; lit "v"])
    by (symmetry; apply splitFrom_manyTokens).
  destruct n as [|n]; [lia|]. clear Hn.
  assert (Hc : forall w,
             countOf w (replicate (S n) (lit "t") ++ [lit "u"; lit "v"])
             = (if decide (lit "t" = w) then Z.of_nat (S n) else 0)
               + countOf w [lit "u"; lit "v"]).
  { intros w. by rewrite countOf_app, countOf_replicate. }
  split.
  - replace (setOf ((replicate (S n) (lit "t") ++ [lit "u"; lit "v"])
                      ++ [lit "u"; lit "v"]))
      with [lit "t"; lit "u"; lit "v"].
    + cbn [fmap list_fmap]. rewrite !Hc. f_equal.
    + unfold setOf. rewrite <- app_assoc. cbn [replicate app foldl].
      rewrite decide_False by (by intros ?%elem_of_nil).
      rewrite setOf_replicate by (by left). reflexivity.
  - replace (setOf ([lit "u"; lit "v"]
                      ++ replicate (S n) (lit "t") ++ [lit "u"; lit "v"]))
      with [lit "u"; lit "v"; lit "t"].
    + cbn [fmap list_fmap]. rewrite !Hc. f_equal.
    + unfold setOf. cbn [replicate app foldl].
      change (foldl ?f ?acc (lit "t" :: ?l))
        with (foldl f (f acc (lit "t")) l).
      cbv beta. rewrite setOf_replicate; reflexivity || (vm_compute; by right; right; left).
Qed.

(** * The claims *)

Section Claims.
Variable toLowerCase : str -> str.
Variable emojiDatabase : list EmojiData.t.
Variable emojiKeywordIndex : list (str * list str).

(** The guard of the word matcher as the source has it: the length is
    the one of the word as given, before any trimming. *)
Lemma predictEmojisForWord_rejects word maxResults :
  word = [] \/ (length word < 2)%nat ->
  predictEmojisForWord toLowerCase emojiKeywordIndex word maxResults = Some [].
Proof.
  intros H. unfold predictEmojisForWord, len.
  destruct H as [->|H]; [done|].
  rewrite orb_true_intro; [done|]. right. apply Z.ltb_lt. lia.
Qed.

(** C5 — cap invariant: for every input string and every
    [maxResults = n >= 0], the word matcher and the sentence matcher both
    return, and the sequence returned has at most [n] elements. *)
Theorem cap_invariant (input : str) (n : Z) :
  0 <= n ->
  (exists r,
      predictEmojisForWord toLowerCase emojiKeywordIndex input n = Some r /\
      Z.of_nat (length r) <= n) /\
  (exists r,
      predictEmojisForSentence toLowerCase emojiDatabase emojiKeywordIndex
        input n = Some r /\
      Z.of_nat (length r) <= n).
Proof.
  intros Hn. split.
  - destruct (predictEmojisForWord_inv toLowerCase emojiKeywordIndex
                (fun _ => True)) with (word := input) (maxResults := n)
      as [->|(acc & -> & _)]; try done.
    + eexists. split; [done|]. simpl. lia.
    + eexists. split; [done|]. by apply ranking_length.
  - destruct (predictEmojisForSentence_inv toLowerCase emojiDatabase
                emojiKeywordIndex (fun _ => True))
      with (sentence := input) (maxResults := n) as (acc & -> & _); try done.
    eexists. split; [done|]. by apply ranking_length.
Qed.

(** C6 — dedup invariant: for every input string and every [maxResults],
    the word matcher and the sentence matcher both return, and the
    sequence returned holds no symbol twice. *)
Theorem dedup_invariant (input : str) (maxResults : Z) :
  (exists r,
      predictEmojisForWord toLowerCase emojiKeywordIndex input maxResults
        = Some r /\ NoDup r) /\
  (exists r,
      predictEmojisForSentence toLowerCase emojiDatabase emojiKeywordIndex
        input maxResults = Some r /\ NoDup r).
Proof.
  split.
  - destruct (predictEmojisForWord_inv toLowerCase emojiKeywordIndex AccOk)
      with (word := input) (maxResults := maxResults)
      as [->|(acc & -> & Hacc & _)].
    + intros sc mt acc e _ _. apply claim_AccOk.
    + apply claimAll_inv with (Q := fun _ => True).
      * intros acc e Hacc _. by apply claim_AccOk.
      * by apply Forall_forall.
      * apply AccOk_empty.
    + eexists. split; [done|]. constructor.
    + eexists. split; [done|]. by apply ranking_NoDup.
  - destruct (predictEmojisForSentence_inv toLowerCase emojiDatabase
                emojiKeywordIndex AccOk)
      with (sentence := input) (maxResults := maxResults)
      as (acc & -> & Hacc & _).
    + intros sc mt acc e _. apply claim_AccOk.
    + apply AccOk_empty.
    + eexists. split; [done|]. by apply ranking_NoDup.
Qed.

(** C7 — no failure mode: on every input the two predictors return (no
    [TypeError] is raised on the way) and what they return is a sequence
    of symbols of the knowledge base; the category accessor returns
    symbols of records of that category, the popular symbols are the
    twenty constants; the empty string yields the empty sequence. *)
Theorem engine_never_fails (input : str) (n : Z) :
  (exists r,
      predictEmojisForWord toLowerCase emojiKeywordIndex input n = Some r /\
      Forall (fun e => e ∈ indexSymbols emojiKeywordIndex) r) /\
  (exists r,
      predictEmojisForSentence toLowerCase emojiDatabase emojiKeywordIndex
        input n = Some r /\
      Forall (fun e => e ∈ indexSymbols emojiKeywordIndex
                           ++ (EmojiData.emoji <$> emojiDatabase)) r) /\
  Forall (fun e => exists data, data ∈ emojiDatabase /\
                                EmojiData.category data = input /\
                                EmojiData.emoji data = e)
    (getEmojisByCategory emojiDatabase input n) /\
  length getPopularEmojis = 20%nat /\
  predictEmojisForWord toLowerCase emojiKeywordIndex [] n = Some [] /\
  predictEmojisForSentence toLowerCase emojiDatabase emojiKeywordIndex [] n
    = Some [].
Proof.
  split; [apply predictEmojisForWord_symbols|]. split; [|split; [|done]].
  - pose (P := fun acc : Acc float =>
                 Forall (fun e => e ∈ indexSymbols emojiKeywordIndex
                                      ++ (EmojiData.emoji <$> emojiDatabase))
                   (emoji <$> matches acc)).
    destruct (predictEmojisForSentence_inv toLowerCase emojiDatabase
                emojiKeywordIndex P)
      with (sentence := input) (maxResults := n) as (acc & -> & Hacc).
    + intros sc mt acc e He Hacc. unfold P, claim in *.
      destruct (decide _); [done|]. simpl. rewrite fmap_app.
      apply Forall_app. split; [done|]. by repeat constructor.
    + constructor.
    + eexists. split; [done|]. apply Forall_forall. intros e He.
      apply ranking_elem_of in He. unfold P in Hacc.
      rewrite Forall_forall in Hacc. auto.
  - apply Forall_forall. intros e He. unfold getEmojisByCategory in He.
    apply list_elem_of_fmap in He as (data & -> & Hdata).
    unfold slice0 in Hdata. apply elem_of_take in Hdata as (i & Hdata & _).
    apply list_elem_of_lookup_2, list_elem_of_filter in Hdata as [Hc Hin].
    by exists data.
Qed.

(** The matches of the word matcher are ranked by descending score. *)
Lemma sort_afterZ_sorted ms :
  StronglySorted (fun a b => score b <= score a) (sort afterZ ms).
Proof.
  apply sort_sorted; unfold afterZ.
  - intros a b c. lia.
  - intros a b ?%Z.ltb_lt. lia.
  - intros a b ?%Z.ltb_ge. lia.
Qed.

Lemma ExactFirst_exactPass E :
  ExactFirst E (claimAll 100 exact emptyAcc E).
Proof.
  split.
  - apply claimAll_inv
      with (P := fun acc : Acc Z =>
                   Forall (fun m => (emoji m ∈ E ∧ score m = 100) ∨
                                    (¬ emoji m ∈ E ∧ score m < 100)) (matches acc))
           (Q := fun e => e ∈ E).
    + intros acc e Hacc He. unfold claim. destruct (decide _); [done|]. simpl.
      apply Forall_app. split; [done|]. apply Forall_singleton. by left.
    + by apply Forall_forall.
    + constructor.
  - intros e He. by apply claimAll_seen.
Qed.

Lemma ExactFirst_claim E sc mt acc e :
  sc <= 88 -> ExactFirst E acc -> ExactFirst E (claim sc mt acc e).
Proof.
  intros Hsc [Hms Hseen]. unfold claim.
  destruct (decide _) as [|Hne]; [done|]. split; simpl.
  - apply Forall_app. split; [done|]. apply Forall_singleton. right. simpl.
    split; [|lia]. intros He. by apply Hne, Hseen.
  - intros x Hx. apply elem_of_union. left. by apply Hseen.
Qed.

(** C4 — monotonic strategy priority: in the ranking the word matcher
    returns, a symbol of the exact pass (a symbol under the keyword equal
    to the normalized word) is never placed after a symbol that only a
    later pass claimed. *)
Theorem exact_symbols_first (word : str) (maxResults : Z) :
  exists r,
    predictEmojisForWord toLowerCase emojiKeywordIndex word maxResults = Some r /\
    forall i j e1 e2,
      r !! i = Some e1 -> r !! j = Some e2 ->
      e1 ∈ exactSymbols emojiKeywordIndex (trim (toLowerCase word)) ->
      e2 ∉ exactSymbols emojiKeywordIndex (trim (toLowerCase word)) ->
      (i < j)%nat.
Proof.
  set (E := exactSymbols emojiKeywordIndex (trim (toLowerCase word))).
  destruct (predictEmojisForWord_inv toLowerCase emojiKeywordIndex (ExactFirst E))
    with (word := word) (maxResults := maxResults)
    as [->|(acc & -> & Hms & _)].
  - intros sc mt acc e Hsc _. by apply ExactFirst_claim.
  - apply ExactFirst_exactPass.
  - eexists. split; [done|]. intros i j e1 e2 Hi. by rewrite lookup_nil in Hi.
  - eexists. split; [done|]. intros i j e1 e2 Hi Hj He1 He2.
    unfold rank, slice0 in Hi, Hj.
    rewrite list_lookup_fmap in Hi, Hj.
    destruct (take _ _ !! i) as [m1|] eqn:Hm1; [|done].
    destruct (take _ _ !! j) as [m2|] eqn:Hm2; [|done].
    simpl in Hi, Hj. injection Hi as <-. injection Hj as <-.
    apply lookup_take_Some in Hm1 as [Hm1 _].
    apply lookup_take_Some in Hm2 as [Hm2 _].
    assert (Hall : Forall (fun m => (emoji m ∈ E ∧ score m = 100) ∨
                                    (¬ emoji m ∈ E ∧ score m < 100))
                     (sort afterZ (matches acc))).
    { by rewrite sort_perm. }
    rewrite Forall_forall in Hall.
    destruct (Hall m1) as [[_ H1]|[? _]];
      [by eapply list_elem_of_lookup_2| |done].
    destruct (Hall m2) as [[? _]|[_ H2]];
      [by eapply list_elem_of_lookup_2|done|].
    destruct (Nat.lt_trichotomy i j) as [?|[->|Hji]]; [done| |].
    + rewrite Hm1 in Hm2. injection Hm2 as ->. lia.
    + assert (score m1 <= score m2); [|lia].
      apply (StronglySorted_lookup_lt _ _ _ _ _ _
               (sort_afterZ_sorted (matches acc)) Hji Hm2 Hm1).
Qed.

(** With a negative [maxResults] the fuzzy and the semantic pass are
    both skipped. *)
Lemma wordCandidates_negative w maxResults :
  maxResults < 0 ->
  wordCandidates emojiKeywordIndex w maxResults
    = Some (mkAcc (exactAndPrefix emojiKeywordIndex w)
              (seenEmojis (prefixPass emojiKeywordIndex w
                 (claimAll 100 exact emptyAcc (exactSymbols emojiKeywordIndex w))))).
Proof.
  intros Hn. unfold wordCandidates, exactAndPrefix.
  rewrite exactPass_eq, bind_Some_l.
  unfold fuzzyPass, semanticPass.
  set (acc := prefixPass _ _ _).
  assert ((Z.of_nat (length (matches acc)) <? maxResults) = false) as ->
    by (apply Z.ltb_ge; lia).
  rewrite bind_Some_l.
  assert ((Z.of_nat (length (matches acc)) <? maxResults) = false) as ->
    by (apply Z.ltb_ge; lia).
  simpl. by destruct acc.
Qed.

(** C10 — negative [maxResults]: for a word that passes the guard and
    [maxResults = -k] with [k > 0], the word matcher returns the ranked
    candidates (those of the exact and prefix passes) without their last
    [k] elements. So the result is never the full ranking when there is a
    candidate, and it is empty exactly when [k] is at least the number of
    candidates. *)
Theorem negative_maxResults (word : str) (k : nat) :
  (0 < k)%nat -> (2 <= length word)%nat ->
  let ranked :=
    sort afterZ (exactAndPrefix emojiKeywordIndex (trim (toLowerCase word))) in
  let result := emoji <$> take (length ranked - k) ranked in
  predictEmojisForWord toLowerCase emojiKeywordIndex word (- Z.of_nat k)
    = Some result /\
  length result = (length ranked - k)%nat /\
  (ranked <> [] -> result <> emoji <$> ranked) /\
  (result = [] <-> (length ranked <= k)%nat).
Proof.
  intros Hk Hword ranked result. split; [|split; [|split]].
  - unfold predictEmojisForWord, len.
    destruct word as [|c word]; [simpl in Hword; lia|].
    rewrite bool_decide_eq_false_2; [|done].
    destruct (Z.ltb_spec (Z.of_nat (length (c :: word))) 2); [lia|]. simpl orb. cbv iota.
    rewrite wordCandidates_negative, bind_Some_l; [|lia].
    unfold rank. cbn [matches]. by rewrite slice0_negative.
  - unfold result. rewrite length_fmap, length_take. lia.
  - intros Hne Heq. apply (f_equal length) in Heq.
    unfold result in Heq. rewrite !length_fmap, length_take in Heq.
    destruct ranked; [done|]. simpl in Heq. lia.
  - unfold result. split.
    + intros Heq. apply (f_equal length) in Heq.
      rewrite length_fmap, length_take in Heq. simpl in Heq. lia.
    + intros Hle. replace (length ranked - k)%nat with 0%nat by lia. done.
Qed.

(** C3 — the fuzzy pass: [levenshteinDistance] returns on every pair of
    strings, and what it returns is the edit distance, the least number
    of single-character insertions, deletions and substitutions that turn
    one string into the other; the pass runs only if fewer than
    [maxResults] candidates exist, looks only at the keywords whose length
    is within 2 of the length of the word, and for a distance of at most 2
    awards [80 - 10 * distance] to every symbol under the keyword that is
    not yet claimed (each such symbol, once). *)
Theorem fuzzy_pass_spec (normalizedWord : str) (maxResults : Z) (acc : Acc Z) :
  (forall a b, exists d,
      levenshteinDistance a b = Some d /\ edit_path d a b /\
      forall n, edit_path n a b -> (d <= n)%nat) /\
  fuzzyPass emojiKeywordIndex normalizedWord maxResults acc
    = Some (fuzzySpec emojiKeywordIndex normalizedWord maxResults acc) /\
  wordCandidates emojiKeywordIndex normalizedWord maxResults
    = Some (semanticPass emojiKeywordIndex normalizedWord maxResults
              (fuzzySpec emojiKeywordIndex normalizedWord maxResults
                 (prefixPass emojiKeywordIndex normalizedWord
                    (claimAll 100 exact emptyAcc
                       (exactSymbols emojiKeywordIndex normalizedWord))))) /\
  (forall seen emojis,
      NoDup (unclaimed seen emojis) /\
      forall e, e ∈ unclaimed seen emojis <-> e ∈ emojis /\ e ∉ seen).
Proof.
  split; [|split; [|split]].
  - intros a b. exists (lev a b). split; [apply levenshteinDistance_lev|].
    split; [apply lev_path|]. intros n. apply lev_lower.
  - apply fuzzyPass_fuzzySpec.
  - unfold wordCandidates.
    by rewrite exactPass_eq, bind_Some_l, fuzzyPass_fuzzySpec, bind_Some_l.
  - intros seen emojis. split; [apply unclaimed_NoDup|].
    intros e. apply unclaimed_elem_of.
Qed.


(** C8 — cosine symmetry, for strings of at most 94906265 tokens each:
    [cosineSimilarity] returns the same double whichever of the two
    strings is passed first. *)
Theorem cosineSimilarity_symmetric (a b : str) :
  Z.of_nat (length (split (toLowerCase a))) <= 94906265 ->
  Z.of_nat (length (split (toLowerCase b))) <= 94906265 ->
  cosineSimilarity toLowerCase a b = cosineSimilarity toLowerCase b a.
Proof.
  intros Ha Hb.
  rewrite (cosineSimilarity_exact toLowerCase a b Ha Hb).
  rewrite (cosineSimilarity_exact toLowerCase b a Hb Ha).
  set (words1 := split (toLowerCase a)). set (words2 := split (toLowerCase b)).
  rewrite !(sumOver_perm _ _ _ (setOf_app_comm words2 words1)).
  rewrite (sumOver_ext (fun w => countOf w words2 * countOf w words1)
             (fun w => countOf w words1 * countOf w words2)) by (intros; lia).
  by rewrite float_mul_comm.
Qed.

(** C9 — the magnitudes in [cosineSimilarity]: splitting either string
    yields at least one token, so the sum of squares of either frequency
    vector is at least 1 and so is its magnitude, as a double; the guard
    [magnitude1 === 0 || magnitude2 === 0] is never taken, the divisor
    [magnitude1 * magnitude2] is never zero, and the function always
    returns the quotient. *)
Theorem magnitudes_at_least_one (str1 str2 : str) :
  let vector1 := (frequencyVectors toLowerCase str1 str2).1 in
  let vector2 := (frequencyVectors toLowerCase str1 str2).2 in
  (1 <= length (split (toLowerCase str1)))%nat /\
  (1 <= length (split (toLowerCase str2)))%nat /\
  (1 <=? sumSquares vector1)%float = true /\
  (1 <=? sumSquares vector2)%float = true /\
  (1 <=? magnitude vector1)%float = true /\
  (1 <=? magnitude vector2)%float = true /\
  ((magnitude vector1 =? 0)%float || (magnitude vector2 =? 0)%float) = false /\
  (magnitude vector1 * magnitude vector2 =? 0)%float = false /\
  cosineSimilarity toLowerCase str1 str2
    = (dotProduct vector1 vector2
       / (magnitude vector1 * magnitude vector2))%float.
Proof.
  intros vector1 vector2.
  pose proof (split_nonempty (toLowerCase str1)) as H1.
  pose proof (split_nonempty (toLowerCase str2)) as H2.
  assert (S1 : AtLeastOne (Prim2SF (sumSquares vector1))).
  { apply sumSquares_counts; [done|]. intros w Hw.
    apply setOf_elem_of, elem_of_app. by left. }
  assert (S2 : AtLeastOne (Prim2SF (sumSquares vector2))).
  { apply sumSquares_counts; [done|]. intros w Hw.
    apply setOf_elem_of, elem_of_app. by right. }
  pose proof (magnitude_big _ S1) as B1. pose proof (magnitude_big _ S2) as B2.
  assert (G : ((magnitude vector1 =? 0)%float || (magnitude vector2 =? 0)%float) = false).
  { by rewrite (big_nonzero _ B1), (big_nonzero _ B2). }
  repeat split; try assumption.
  - by apply big_ge_one.
  - by apply big_ge_one.
  - by apply big_ge_one.
  - by apply big_ge_one.
  - by apply big_nonzero, mul_big.
  - unfold cosineSimilarity. fold vector1 vector2.
    destruct (frequencyVectors toLowerCase str1 str2) as [v1 v2] eqn:E.
    simpl in vector1, vector2. subst vector1 vector2. by rewrite G.
Qed.

End Claims.

(** ** The engine on the sample knowledge base *)

Lemma cap_invariant_witness :
  0 <= 1 /\
  (exists r, Sample.predictEmojisForWord (lit "happy") 1 = Some r /\
             Z.of_nat (length r) <= 1) /\
  (exists r, Sample.predictEmojisForSentence (lit "happy birthday") 1 = Some r /\
             Z.of_nat (length r) <= 1).
Proof.
  split; [lia|]. split.
  - apply (cap_invariant Sample.toLowerCase Sample.emojiDatabase
             Sample.emojiKeywordIndex (lit "happy") 1). lia.
  - apply (cap_invariant Sample.toLowerCase Sample.emojiDatabase
             Sample.emojiKeywordIndex (lit "happy birthday") 1). lia.
Defined.

Lemma negative_maxResults_witness :
  (0 < 1)%nat /\ (2 <= length (lit "ha"))%nat /\
  Sample.predictEmojisForWord (lit "ha") (-1) = Some [Sample.grinning].
Proof.
  assert (H1 : (0 < 1)%nat) by lia.
  assert (H2 : (2 <= length (lit "ha"))%nat) by (simpl; lia).
  split; [exact H1|]. split; [exact H2|].
  destruct (negative_maxResults Sample.toLowerCase Sample.emojiKeywordIndex
              (lit "ha") 1 H1 H2) as [H _].
  unfold Sample.predictEmojisForWord.
  etransitivity; [exact H|]. vm_compute. reflexivity.
Defined.

(** C1 — the guard of the word matcher tests the length of the word as
    given, and trims afterwards: the word ["h "], whose trimmed form has one
    character, is not rejected, and the matcher goes on to score it; a word
    of two blanks, whose trimmed form is empty, is a prefix of every
    keyword. *)
Theorem short_word_guard_ignores_trim :
  length (trim (lit "h ")) = 1%nat /\
  Sample.predictEmojisForWord (lit "h ") 5 = Some [Sample.grinning; Sample.party] /\
  length (trim (lit "  ")) = 0%nat /\
  Sample.predictEmojisForWord (lit "  ") 5
  = Some [Sample.grinning; Sample.party; Sample.cake].
Proof. repeat split; vm_compute; reflexivity. Qed.



Lemma cosineSimilarity_symmetric_witness :
  Z.of_nat (length (split (Sample.toLowerCase (lit "good day to you")))) <= 94906265 /\
  Z.of_nat (length (split (Sample.toLowerCase (lit "a good day")))) <= 94906265 /\
  cosineSimilarity Sample.toLowerCase (lit "good day to you") (lit "a good day")
  = cosineSimilarity Sample.toLowerCase (lit "a good day") (lit "good day to you").
Proof.
  assert (H1 : Z.of_nat (length (split (Sample.toLowerCase (lit "good day to you"))))
               <= 94906265) by (vm_compute; discriminate).
  assert (H2 : Z.of_nat (length (split (Sample.toLowerCase (lit "a good day"))))
               <= 94906265) by (vm_compute; discriminate).
  split; [exact H1|]. split; [exact H2|].
  exact (cosineSimilarity_symmetric Sample.toLowerCase (lit "good day to you")
           (lit "a good day") H1 H2).
Defined.

(** C8, the claim as stated — a string of 94906268 tokens: the token [t]
    94906266 times, then [u] and [v].  Its sum of squares is
    [94906266^2 + 1 + 1] when it is the first argument and
    [1 + 1 + 94906266^2] when it is the second; above 2^53 the first
    stays at [94906266^2] and the second is exact, and the two
    similarities to ["u v"] differ. *)
Lemma cosineSimilarity_not_symmetric :
  (cosineSimilarity Sample.toLowerCase (lit "u v")
     (Sample.manyTokens (Z.to_nat 94906266))
   <? cosineSimilarity Sample.toLowerCase
        (Sample.manyTokens (Z.to_nat 94906266)) (lit "u v"))%float = true.
Proof.
  destruct (frequencyVectors_manyTokens (Z.to_nat 94906266)) as [Hl Hr]; [lia|].
  unfold cosineSimilarity. rewrite Hl, Hr.
  rewrite Z2Nat.id by lia. vm_compute. reflexivity.
Qed.

(** * Further properties of the engine *)

(** ** levenshteinDistance as a metric *)

Lemma lev_zero a : forall b, lev a b = 0%nat -> a = b.
Proof.
  induction a as [|x a IH]; intros b H.
  - rewrite lev_nil_l in H. by destruct b.
  - destruct b as [|y b]; [by rewrite lev_nil_r in H|].
    rewrite lev_cons in H. destruct (decide (x = y)) as [->|]; [|lia].
    f_equal. by apply IH.
Qed.

Lemma edit_path_app n m a b c :
  edit_path n a b -> edit_path m b c -> edit_path (n + m) a c.
Proof. induction 1; simpl; [done|]. intros. econstructor; eauto. Qed.

Lemma edit_step_length a b :
  edit_step a b -> (length b <= S (length a))%nat /\ (length a <= S (length b))%nat.
Proof. intros [l1 l2 x|l1 l2 x|l1 l2 x y]; rewrite !length_app; simpl; lia. Qed.

Lemma edit_path_length n a b :
  edit_path n a b -> (length b <= length a + n)%nat /\ (length a <= length b + n)%nat.
Proof.
  induction 1 as [a|n a b c Hs _ IH]; [lia|].
  apply edit_step_length in Hs. lia.
Qed.

Lemma lev_le_max a : forall b, (lev a b <= Nat.max (length a) (length b))%nat.
Proof.
  induction a as [|x a IH]; intros b.
  - rewrite lev_nil_l. simpl. lia.
  - destruct b as [|y b]; [rewrite lev_nil_r; lia|].
    rewrite lev_cons. specialize (IH b). simpl.
    destruct (decide (x = y)); lia.
Qed.

(** X1 — [levenshteinDistance] is symmetric: exchanging the two strings
    does not change the distance returned. *)
Theorem levenshteinDistance_symmetric (a b : str) :
  levenshteinDistance a b = levenshteinDistance b a.
Proof. by rewrite !levenshteinDistance_lev, lev_sym. Qed.

(** X2 — [levenshteinDistance] returns 0 exactly on equal strings. *)
Theorem levenshteinDistance_zero (a b : str) :
  levenshteinDistance a b = Some 0%nat <-> a = b.
Proof.
  rewrite levenshteinDistance_lev. split.
  - intros [= H]. by apply lev_zero.
  - intros ->. by rewrite lev_diag.
Qed.

(** X3 — [levenshteinDistance] obeys the triangle inequality. *)
Theorem levenshteinDistance_triangle (a b c : str) :
  exists dab dbc dac,
    levenshteinDistance a b = Some dab /\ levenshteinDistance b c = Some dbc /\
    levenshteinDistance a c = Some dac /\ (dac <= dab + dbc)%nat.
Proof.
  exists (lev a b), (lev b c), (lev a c).
  rewrite !levenshteinDistance_lev. repeat split.
  apply lev_lower. eapply edit_path_app; apply lev_path.
Qed.

(** X4 — the distance returned by [levenshteinDistance] is at least the
    difference of the two lengths and at most the greater length. *)
Theorem levenshteinDistance_bounds (a b : str) :
  exists d,
    levenshteinDistance a b = Some d /\
    (length a - length b <= d)%nat /\ (length b - length a <= d)%nat /\
    (d <= Nat.max (length a) (length b))%nat.
Proof.
  exists (lev a b). rewrite levenshteinDistance_lev. split; [done|].
  pose proof (edit_path_length _ _ _ (lev_path a b)).
  pose proof (lev_le_max a b). lia.
Qed.

(** X5 — the test on the lengths in the fuzzy pass excludes no match: a
    keyword within edit distance 2 of the word always passes it, so the
    body of the pass does the same with or without the test. *)
Theorem fuzzy_length_test_is_sound (normalizedWord : str)
    (entry : str * list str) (acc : Acc Z) :
  fuzzyEntry normalizedWord entry acc
  = fuzzyEntryUnfiltered normalizedWord entry acc.
Proof.
  destruct entry as [keyword emojis]. unfold fuzzyEntry, fuzzyEntryUnfiltered.
  rewrite levenshteinDistance_lev, bind_Some_l.
  destruct (Z.leb_spec (Z.abs (len keyword - len normalizedWord)) 2) as [|Hfar];
    [done|].
  pose proof (edit_path_length _ _ _ (lev_path normalizedWord keyword)).
  destruct (Nat.leb_spec (lev normalizedWord keyword) 2); [|done].
  unfold len in Hfar. lia.
Qed.

(** ** Where the candidates of the word matcher come from *)

Lemma startsWith_refl s : startsWith s s = true.
Proof. induction s as [|c s IH]; simpl; [done|]. by rewrite bool_decide_eq_true_2. Qed.

Lemma startsWith_includes s p : startsWith s p = true -> includes s p = true.
Proof. intros H. destruct s; simpl in *; by rewrite H. Qed.

Lemma exactSymbols_entry (idx : list (str * list str)) w :
  exactSymbols idx w = [] \/ (w, exactSymbols idx w) ∈ idx.
Proof.
  unfold exactSymbols, indexGet.
  destruct (find _ idx) as [[k es]|] eqn:E; simpl; [right|by left].
  apply find_some in E as [Hin Hk]. apply bool_decide_eq_true in Hk.
  simpl in Hk. subst k. by apply list_elem_of_In.
Qed.

Lemma claimAll_Provenance (idx : list (str * list str)) w sc mt keyword emojis acc :
  (keyword, emojis) ∈ idx -> Strategy w keyword sc mt ->
  Forall (Provenance idx w) (matches acc) ->
  Forall (Provenance idx w) (matches (claimAll sc mt acc emojis)).
Proof.
  intros Hin Hst.
  apply claimAll_inv
    with (P := fun acc : Acc Z => Forall (Provenance idx w) (matches acc))
         (Q := fun e => e ∈ emojis); [|by apply Forall_forall].
  intros acc' e Hacc' He. unfold claim. destruct (decide _); [done|]. simpl.
  apply Forall_app. split; [done|]. apply Forall_singleton.
  by exists keyword, emojis.
Qed.

(** Every candidate of the four passes comes from an entry of the index
    by the rule of its kind. *)
Lemma wordCandidates_provenance (idx : list (str * list str)) w maxResults :
  exists acc,
    wordCandidates idx w maxResults = Some acc /\
    Forall (Provenance idx w) (matches acc).
Proof.
  unfold wordCandidates. rewrite exactPass_eq, bind_Some_l.
  assert (H1 : Forall (Provenance idx w)
                 (matches (claimAll 100 exact emptyAcc (exactSymbols idx w)))).
  { destruct (exactSymbols_entry idx w) as [->|Hin]; [constructor|].
    eapply claimAll_Provenance; [exact Hin|done|constructor]. }
  assert (H2 : Forall (Provenance idx w)
                 (matches (prefixPass idx w
                    (claimAll 100 exact emptyAcc (exactSymbols idx w))))).
  { unfold prefixPass.
    apply (foldl_inv _ (fun acc : Acc Z => Forall (Provenance idx w) (matches acc)));
      [|exact H1].
    intros [keyword emojis] acc Hin Hacc. simpl.
    destruct (startsWith keyword w) eqn:Hsw; simpl; [|done].
    case_bool_decide; simpl; [done|].
    eapply claimAll_Provenance; [exact Hin| |done]. done. }
  assert (H3 : exists acc3,
             fuzzyPass idx w maxResults
               (prefixPass idx w (claimAll 100 exact emptyAcc (exactSymbols idx w)))
             = Some acc3 /\ Forall (Provenance idx w) (matches acc3)).
  { unfold fuzzyPass. destruct (_ <? _); [|by eauto].
    apply forEachM_inv
      with (P := fun acc : Acc Z => Forall (Provenance idx w) (matches acc));
      [|done].
    intros [keyword emojis] acc Hin Hacc. simpl.
    destruct (Z.leb_spec (Z.abs (len keyword - len w)) 2) as [Hlen|]; [|by eauto].
    rewrite levenshteinDistance_lev, bind_Some_l.
    destruct (Nat.leb_spec (lev w keyword) 2) as [Hd|]; [|by eauto].
    eexists. split; [done|].
    eapply claimAll_Provenance; [exact Hin| |done].
    split; [done|]. exists (lev w keyword).
    by rewrite levenshteinDistance_lev. }
  destruct H3 as (acc3 & -> & H3). rewrite bind_Some_l.
  eexists. split; [done|]. unfold semanticPass.
  destruct (Z.ltb_spec (Z.of_nat (length (matches acc3))) maxResults); simpl;
    [|done].
  destruct (Z.leb_spec 3 (len w)) as [Hw|]; [|done].
  apply (foldl_inv _ (fun acc : Acc Z => Forall (Provenance idx w) (matches acc)));
    [|exact H3].
  intros [keyword emojis] acc Hin Hacc. simpl.
  destruct (includes keyword w) eqn:Hinc; simpl; [|done].
  case_bool_decide; simpl; [done|].
  eapply claimAll_Provenance; [exact Hin| |done]. done.
Qed.

Section MoreWordFacts.
Variable toLowerCase : str -> str.
Variable emojiKeywordIndex : list (str * list str).

(** X6 — the word matcher returns no unrelated symbol: every symbol of its
    result stands in the index under a keyword that contains the
    normalized word or is within edit distance 2 of it. *)
Theorem predictEmojisForWord_sound (word : str) (maxResults : Z) :
  exists r,
    predictEmojisForWord toLowerCase emojiKeywordIndex word maxResults = Some r /\
    forall e, e ∈ r ->
      exists keyword emojis,
        (keyword, emojis) ∈ emojiKeywordIndex /\ e ∈ emojis /\
        (includes keyword (trim (toLowerCase word)) = true \/
         exists d, levenshteinDistance (trim (toLowerCase word)) keyword = Some d /\
                   (d <= 2)%nat).
Proof.
  unfold predictEmojisForWord. destruct (_ || _).
  { eexists. split; [done|]. by intros e ?%elem_of_nil. }
  destruct (wordCandidates_provenance emojiKeywordIndex (trim (toLowerCase word))
              maxResults) as (acc & -> & Hacc).
  rewrite bind_Some_l. eexists. split; [done|]. intros e He.
  apply ranking_elem_of, list_elem_of_fmap in He as (m & -> & Hm).
  rewrite Forall_forall in Hacc.
  destruct (Hacc m Hm) as (keyword & emojis & Hin & Hem & Hst).
  exists keyword, emojis. split; [done|]. split; [done|].
  destruct (matchType m); simpl in Hst.
  - left. destruct Hst as [-> _]. apply startsWith_includes, startsWith_refl.
  - left. destruct Hst as [H _]. by apply startsWith_includes.
  - left. by destruct Hst as [H _].
  - right. destruct Hst as (_ & d & Hd & Hle & _). by exists d.
Qed.

(** X7 — every candidate of the word matcher carries the score of its
    kind: 100 for an exact match, at most 88 for a prefix match, 60, 70 or
    80 for a fuzzy match, 70 for a semantic match; no score exceeds 100. *)
Theorem wordCandidates_scores (normalizedWord : str) (maxResults : Z) :
  exists acc,
    wordCandidates emojiKeywordIndex normalizedWord maxResults = Some acc /\
    Forall (fun m =>
              score m <= 100 /\
              match matchType m with
              | exact => score m = 100
              | prefix => score m <= 88 /\ Z.even (score m) = true
              | fuzzy => score m = 60 \/ score m = 70 \/ score m = 80
              | semantic => score m = 70
              end) (matches acc).
Proof.
  destruct (wordCandidates_provenance emojiKeywordIndex normalizedWord maxResults)
    as (acc & Hacc & Hprov).
  exists acc. split; [done|]. eapply Forall_impl; [exact Hprov|].
  intros m (keyword & emojis & _ & _ & Hst).
  destruct (matchType m); simpl in Hst.
  - destruct Hst as [_ ->]. lia.
  - destruct Hst as (Hsw & Hne & ->).
    pose proof (startsWith_length _ _ Hsw).
    assert (length keyword <> length normalizedWord).
    { intros Hl. apply Hne. by apply startsWith_same_length. }
    unfold len. split; [lia|]. split; [lia|].
    replace (90 - (Z.of_nat (length keyword) - Z.of_nat (length normalizedWord)) * 2)
      with (2 * (45 - (Z.of_nat (length keyword) - Z.of_nat (length normalizedWord))))
      by lia.
    apply Z.even_mul.
  - destruct Hst as (_ & _ & _ & ->). lia.
  - destruct Hst as (_ & d & _ & Hd & ->). lia.
Qed.

End MoreWordFacts.

(** ** The exact symbols at the head of the ranking *)

Lemma slice0_nonneg {A} (arr : list A) e :
  0 <= e -> slice0 arr e = take (Z.to_nat e) arr.
Proof.
  intros He. unfold slice0. destruct (Z.ltb_spec e 0); [lia|].
  destruct (Z.le_gt_cases e (Z.of_nat (length arr))).
  - by rewrite Z.min_l.
  - rewrite Z.min_r, Nat2Z.id by lia. rewrite !take_ge; [done|lia..].
Qed.

Lemma sort_afterZ_top l1 l2 :
  Forall (fun m => score m = 100) l1 -> Forall (fun m => score m <= 88) l2 ->
  sort afterZ (l1 ++ l2) = l1 ++ sort afterZ l2.
Proof.
  intros H1 H2. induction H1 as [|x l1 Hx H1 IH]; simpl; [done|].
  rewrite IH.
  assert (Hall : Forall (fun m => score m <= 100) (l1 ++ sort afterZ l2)).
  { apply Forall_app. split.
    - eapply Forall_impl; [exact H1|]. simpl. intros; lia.
    - rewrite sort_perm. eapply Forall_impl; [exact H2|]. simpl. intros; lia. }
  destruct (l1 ++ sort afterZ l2) as [|y l]; simpl; [done|].
  apply Forall_cons in Hall as [Hy _]. unfold afterZ.
  by destruct (Z.ltb_spec 0 (score y - score x)); [lia|].
Qed.

Lemma ExactPrefix_exactPass E : ExactPrefix E (claimAll 100 exact emptyAcc E).
Proof. rewrite claimAll_award. exists []. by rewrite app_nil_r. Qed.

Lemma ExactPrefix_claim E sc mt acc e :
  sc <= 88 -> ExactPrefix E acc -> ExactPrefix E (claim sc mt acc e).
Proof.
  intros Hsc (rest & Hms & Hrest). unfold claim.
  destruct (decide _); [by exists rest|].
  exists (rest ++ [mkMatch e sc mt]). simpl. split.
  - by rewrite Hms, app_assoc.
  - apply Forall_app. split; [done|]. by apply Forall_singleton.
Qed.

Section ExactLead.
Variable toLowerCase : str -> str.
Variable emojiKeywordIndex : list (str * list str).

(** X8 — a word that passes the guard, asked with [maxResults = n >= 0]:
    the result is the first [n] elements of a list that starts with the
    distinct symbols of the exact pass, in the order of their entry. So
    when [n] is at least their number, every symbol under the keyword
    equal to the normalized word is returned. *)
Theorem exact_symbols_lead (word : str) (n : Z) :
  (2 <= length word)%nat -> 0 <= n ->
  let E := exactSymbols emojiKeywordIndex (trim (toLowerCase word)) in
  exists r others,
    predictEmojisForWord toLowerCase emojiKeywordIndex word n = Some r /\
    r = take (Z.to_nat n) (unclaimed ∅ E ++ others) /\
    ((length (unclaimed ∅ E) <= Z.to_nat n)%nat -> forall e, e ∈ E -> e ∈ r).
Proof.
  intros Hword Hn E. unfold predictEmojisForWord, len.
  destruct word as [|c word]; [simpl in Hword; lia|].
  rewrite bool_decide_eq_false_2 by done.
  destruct (Z.ltb_spec (Z.of_nat (length (c :: word))) 2); [lia|].
  cbn [orb].
  destruct (wordCandidates_inv emojiKeywordIndex (ExactPrefix E))
    with (w := trim (toLowerCase (c :: word))) (maxResults := n)
    as (acc & -> & rest & Hms & Hrest).
  { intros sc mt acc e Hsc _. by apply ExactPrefix_claim. }
  { apply ExactPrefix_exactPass. }
  rewrite bind_Some_l. unfold rank.
  rewrite Hms, sort_afterZ_top, slice0_nonneg, fmap_take, fmap_app; [|done..| |done].
  2:{ apply Forall_fmap, Forall_forall. by intros. }
  rewrite <- list_fmap_compose.
  replace (emoji ∘ (fun e => mkMatch e 100 exact) <$> unclaimed ∅ E)
    with (unclaimed ∅ E) by (by rewrite list_fmap_id).
  eexists _, (emoji <$> sort afterZ rest). split; [done|]. split; [done|].
  intros Hlen e He. rewrite take_app_ge by done.
  apply elem_of_app. left. apply unclaimed_elem_of. split; [done|].
  apply not_elem_of_empty.
Qed.

End ExactLead.

Lemma exact_symbols_lead_witness :
  (2 <= length (lit "happy"))%nat /\ 0 <= 5 /\
  exists r others,
    Sample.predictEmojisForWord (lit "happy") 5 = Some r /\
    r = take (Z.to_nat 5)
          (unclaimed ∅ (exactSymbols Sample.emojiKeywordIndex
                          (trim (Sample.toLowerCase (lit "happy")))) ++ others) /\
    ((length (unclaimed ∅ (exactSymbols Sample.emojiKeywordIndex
                              (trim (Sample.toLowerCase (lit "happy")))))
      <= Z.to_nat 5)%nat ->
     forall e, e ∈ exactSymbols Sample.emojiKeywordIndex
                     (trim (Sample.toLowerCase (lit "happy"))) -> e ∈ r).
Proof.
  assert (H1 : (2 <= length (lit "happy"))%nat) by (simpl; lia).
  assert (H2 : 0 <= 5) by lia.
  split; [exact H1|]. split; [exact H2|].
  exact (exact_symbols_lead Sample.toLowerCase Sample.emojiKeywordIndex
           (lit "happy") 5 H1 H2).
Defined.

(** ** The sentence matcher: blank input, and what the words bring *)

Lemma trimStart_blank s : Forall (fun c => isSpace c = true) s -> trimStart s = [].
Proof. induction 1 as [|c s Hc _ IH]; simpl; [done|]. by rewrite Hc. Qed.

Lemma trim_blank s : Forall (fun c => isSpace c = true) s -> trim s = [].
Proof. intros H. unfold trim, trimEnd. by rewrite (trimStart_blank s H). Qed.

Lemma claim_seen_mono {num} (sc : num) mt acc e x :
  x ∈ seenEmojis acc -> x ∈ seenEmojis (claim sc mt acc e).
Proof.
  intros Hx. unfold claim. destruct (decide _); [done|]. simpl.
  apply elem_of_union. by left.
Qed.

Lemma claimAll_seen_mono {num} (sc : num) mt emojis : forall acc x,
  x ∈ seenEmojis acc -> x ∈ seenEmojis (claimAll sc mt acc emojis).
Proof.
  unfold claimAll. induction emojis as [|e l IH]; intros acc x Hx; simpl; [done|].
  by apply IH, claim_seen_mono.
Qed.

Lemma claim_SeenExact {num} (sc : num) mt acc e :
  SeenExact acc -> SeenExact (claim sc mt acc e).
Proof.
  intros H x. unfold claim. destruct (decide _); [apply H|]. simpl.
  rewrite fmap_app, elem_of_app, elem_of_union, elem_of_singleton. simpl.
  rewrite list_elem_of_singleton. by rewrite (H x).
Qed.

Section MoreSentenceFacts.
Variable toLowerCase : str -> str.
Variable emojiDatabase : list EmojiData.t.
Variable emojiKeywordIndex : list (str * list str).

(** X9 — blank-sentence rejection: a sentence made of white space only
    (or of nothing) yields the empty sequence. *)
Theorem blank_sentence_rejected (sentence : str) (maxResults : Z) :
  Forall (fun c => isSpace c = true) sentence ->
  predictEmojisForSentence toLowerCase emojiDatabase emojiKeywordIndex
    sentence maxResults = Some [].
Proof.
  intros H. unfold predictEmojisForSentence. rewrite (trim_blank _ H).
  by rewrite orb_true_r.
Qed.

Lemma recordStep_seen_mono normalizedSentence acc data x :
  x ∈ seenEmojis acc ->
  x ∈ seenEmojis (recordStep toLowerCase normalizedSentence acc data).
Proof.
  intros Hx.
  destruct (recordStep_cases toLowerCase normalizedSentence acc data)
    as [->|[sc ->]]; [done|]. by apply claim_seen_mono.
Qed.

Lemma wordSteps_seen words : forall acc acc',
  forEachM (wordStep toLowerCase emojiKeywordIndex) words acc = Some acc' ->
  (forall x, x ∈ seenEmojis acc -> x ∈ seenEmojis acc') /\
  (forall word r e,
      word ∈ words ->
      predictEmojisForWord toLowerCase emojiKeywordIndex word 3 = Some r ->
      e ∈ r -> e ∈ seenEmojis acc').
Proof.
  induction words as [|w words IH]; intros acc acc' H; simpl in H.
  - injection H as <-. split; [done|]. by intros word r e ?%elem_of_nil.
  - destruct (wordStep toLowerCase emojiKeywordIndex w acc) as [acc1|] eqn:H1;
      [|done].
    rewrite bind_Some_l in H. unfold wordStep in H1.
    destruct (predictEmojisForWord toLowerCase emojiKeywordIndex w 3)
      as [rw|] eqn:Hrw; [|done].
    rewrite bind_Some_l in H1. injection H1 as <-.
    destruct (IH _ _ H) as [Hmono Hwords]. split.
    + intros x Hx. by apply Hmono, claimAll_seen_mono.
    + intros word r e [->|Hin]%elem_of_cons Hr He.
      * rewrite Hrw in Hr. injection Hr as <-.
        by apply Hmono, claimAll_seen.
      * by eapply Hwords.
Qed.

(** X10 — what the words bring is kept: for a sentence that is not blank,
    every symbol the word matcher returns (with its cap of 3) for a word
    of the normalized sentence is a candidate of the sentence matcher,
    and it is in the result whenever [maxResults] is at least the number
    of candidates. *)
Theorem sentence_keeps_word_symbols (sentence : str) (maxResults : Z) :
  trim sentence <> [] ->
  exists acc r,
    sentenceCandidates toLowerCase emojiDatabase emojiKeywordIndex
      (trim (toLowerCase sentence)) = Some acc /\
    predictEmojisForSentence toLowerCase emojiDatabase emojiKeywordIndex
      sentence maxResults = Some r /\
    forall word rw e,
      word ∈ split (trim (toLowerCase sentence)) ->
      predictEmojisForWord toLowerCase emojiKeywordIndex word 3 = Some rw ->
      e ∈ rw ->
      e ∈ emoji <$> matches acc /\
      (Z.of_nat (length (matches acc)) <= maxResults -> e ∈ r).
Proof.
  intros Hblank. unfold predictEmojisForSentence.
  assert (sentence <> []) by (by intros ->).
  assert (length (trim sentence) <> 0%nat) by (by destruct (trim sentence)).
  rewrite !bool_decide_eq_false_2 by done. cbn [orb].
  destruct (sentenceCandidates_inv toLowerCase emojiDatabase emojiKeywordIndex
              SeenExact) with (normalizedSentence := trim (toLowerCase sentence))
    as (acc & Hacc & Hseen).
  { intros sc mt acc e _. apply claim_SeenExact. }
  { intros e. simpl. split; [by intros ?%not_elem_of_empty|by intros ?%elem_of_nil]. }
  rewrite Hacc, bind_Some_l. exists acc. eexists. split; [done|]. split; [done|].
  intros word rw e Hword Hrw He.
  assert (Hin : e ∈ emoji <$> matches acc).
  { apply Hseen. unfold sentenceCandidates in Hacc.
    destruct (forEachM _ _ _) as [acc1|] eqn:H1; [|done].
    rewrite bind_Some_l in Hacc. injection Hacc as <-.
    apply wordSteps_seen in H1 as [_ H1].
    apply (foldl_inv _ (fun a : Acc float => e ∈ seenEmojis a)).
    - intros data a _. apply recordStep_seen_mono.
    - by eapply H1. }
  split; [done|]. intros Hn. unfold slice0.
  destruct (Z.ltb_spec maxResults 0); [lia|].
  rewrite take_ge by (rewrite length_sort; lia).
  by rewrite (sort_perm afterF).
Qed.

End MoreSentenceFacts.

Lemma blank_sentence_rejected_witness :
  Forall (fun c => isSpace c = true) (lit "   ") /\
  Sample.predictEmojisForSentence (lit "   ") 10 = Some [].
Proof.
  assert (H : Forall (fun c => isSpace c = true) (lit "   ")).
  { repeat constructor. }
  split; [exact H|].
  exact (blank_sentence_rejected Sample.toLowerCase Sample.emojiDatabase
           Sample.emojiKeywordIndex (lit "   ") 10 H).
Defined.

Lemma sentence_keeps_word_symbols_witness :
  trim (lit "happy birthday") <> [] /\
  exists acc r,
    sentenceCandidates Sample.toLowerCase Sample.emojiDatabase
      Sample.emojiKeywordIndex (trim (Sample.toLowerCase (lit "happy birthday")))
    = Some acc /\
    Sample.predictEmojisForSentence (lit "happy birthday") 10 = Some r /\
    forall word rw e,
      word ∈ split (trim (Sample.toLowerCase (lit "happy birthday"))) ->
      Sample.predictEmojisForWord word 3 = Some rw ->
      e ∈ rw ->
      e ∈ emoji <$> matches acc /\
      (Z.of_nat (length (matches acc)) <= 10 -> e ∈ r).
Proof.
  assert (H : trim (lit "happy birthday") <> []) by (vm_compute; discriminate).
  split; [exact H|].
  exact (sentence_keeps_word_symbols Sample.toLowerCase Sample.emojiDatabase
           Sample.emojiKeywordIndex (lit "happy birthday") 10 H).
Defined.

(** ** The similarity: tokens, and when it vanishes *)

Lemma startsWith_app t l : startsWith (t ++ l) t = true.
Proof.
  induction t as [|c t IH]; simpl; [by destruct l|].
  by rewrite bool_decide_eq_true_2.
Qed.

Lemma includes_app l1 t l2 : includes (l1 ++ t ++ l2) t = true.
Proof.
  induction l1 as [|c l1 IH].
  - apply startsWith_includes, (startsWith_app t l2).
  - simpl. rewrite IH. apply orb_true_r.
Qed.

Lemma splitFrom_tokens t s : forall sep tok pre,
  t ∈ splitFrom sep tok s -> exists l1 l2, pre ++ tok ++ s = l1 ++ t ++ l2.
Proof.
  induction s as [|c s IH]; intros sep tok pre; simpl.
  - intros ->%list_elem_of_singleton. exists pre, []. done.
  - destruct (isSpace c).
    + assert (Hrest : t ∈ splitFrom true [] s ->
                      exists l1 l2, pre ++ tok ++ c :: s = l1 ++ t ++ l2).
      { intros H. destruct (IH true [] (pre ++ tok ++ [c]) H) as (l1 & l2 & E).
        exists l1, l2. rewrite <- E. simpl. by rewrite <- !app_assoc. }
      destruct sep; [done|].
      intros [->|H]%elem_of_cons; [|by apply Hrest].
      by exists pre, (c :: s).
    + intros H. destruct (IH false (tok ++ [c]) pre H) as (l1 & l2 & E).
      exists l1, l2. rewrite <- E. by rewrite <- !app_assoc.
Qed.

(** A token of a string is a substring of it. *)
Lemma split_token_includes s t : t ∈ split s -> includes s t = true.
Proof.
  intros H. destruct (splitFrom_tokens t s false [] [] H) as (l1 & l2 & E).
  simpl in E. rewrite E. apply includes_app.
Qed.

Lemma splitFrom_no_space s : Forall (fun c => isSpace c = false) s ->
  forall sep tok, splitFrom sep tok s = [tok ++ s].
Proof.
  induction 1 as [|c s Hc _ IH]; intros sep tok; simpl.
  - by rewrite app_nil_r.
  - rewrite Hc, IH. by rewrite <- app_assoc.
Qed.

Lemma split_no_space s : Forall (fun c => isSpace c = false) s -> split s = [s].
Proof. intros H. apply (splitFrom_no_space s H false []). Qed.

Lemma countOf_not_elem_of word words : word ∉ words -> countOf word words = 0.
Proof.
  unfold countOf. induction words as [|w words IH]; intros H; [done|].
  apply not_elem_of_cons in H as [Hne Hnin].
  rewrite filter_cons_False by done. by apply IH.
Qed.

Lemma countOf_perm word words words' :
  words ≡ₚ words' -> countOf word words = countOf word words'.
Proof. intros H. unfold countOf. by rewrite H. Qed.

Lemma zero_div_big x : AtLeastOne (Prim2SF x) -> (0 / x)%float = 0%float.
Proof.
  intros H. apply Prim2SF_inj. rewrite div_spec, Prim2SF_zero.
  destruct H as [->|(m & e & -> & _)]; reflexivity.
Qed.

Lemma threshold_positive : (threshold <? 0)%float = false.
Proof. vm_compute. reflexivity. Qed.

Section Similarity.
Variable toLowerCase : str -> str.

(** Without a common token every product of two counts is zero, and so
    is their binary64 sum. *)
Lemma dot_disjoint (words1 words2 allWords : list str) :
  (forall w, w ∈ words1 -> w ∉ words2) ->
  fsumOver (fun w => countOf w words1 * countOf w words2) allWords 0 = 0%float.
Proof.
  intros Hdisj. apply fsumOver_zero.
  intros w. destruct (decide (w ∈ words1)) as [Hin|Hnin].
  - rewrite (countOf_not_elem_of w words2) by auto. lia.
  - by rewrite (countOf_not_elem_of w words1).
Qed.

(** X11 — no shared token, no similarity: when no token of the first
    string is a token of the second, [cosineSimilarity] is [0]. *)
Theorem cosineSimilarity_disjoint (a b : str) :
  (forall w, w ∈ split (toLowerCase a) -> w ∉ split (toLowerCase b)) ->
  cosineSimilarity toLowerCase a b = 0%float.
Proof.
  intros Hdisj.
  destruct (cosineSimilarity_quotient toLowerCase a b) as [-> Hbig]. cbv zeta.
  rewrite dot_disjoint by done. by apply zero_div_big.
Qed.

(** X12 — a keyword of one token never takes the similarity branch: for
    a keyword whose lower-case form holds no white space (and, like the
    normalized sentence, is left alone by [toLowerCase]), the keyword
    adds 80 and counts when it is a substring of the sentence and adds
    nothing otherwise. *)
Theorem single_token_keyword (normalizedSentence keyword : str)
  (sm : float * nat) :
  toLowerCase normalizedSentence = normalizedSentence ->
  toLowerCase (toLowerCase keyword) = toLowerCase keyword ->
  Forall (fun c => isSpace c = false) (toLowerCase keyword) ->
  keywordStep toLowerCase normalizedSentence sm keyword
  = if includes normalizedSentence (toLowerCase keyword)
    then ((sm.1 + 80)%float, S sm.2) else sm.
Proof.
  intros Hs Hk Hns. destruct sm as [score n]. unfold keywordStep.
  destruct (includes normalizedSentence (toLowerCase keyword)) eqn:Hinc; [done|].
  destruct (cosineSimilarity_quotient toLowerCase normalizedSentence
              (toLowerCase keyword)) as [-> Hbig]. cbv zeta.
  rewrite dot_disjoint, zero_div_big, threshold_positive; [done..|].
  rewrite Hs, Hk, (split_no_space _ Hns).
  intros w Hw ->%list_elem_of_singleton.
  apply split_token_includes in Hw. congruence.
Qed.

(** X13 — the similarity sees bags of tokens, for strings of at most
    94906265 tokens each: two first arguments whose token sequences are
    permutations of one another have the same similarity to any
    string. *)
Theorem cosineSimilarity_token_order (a a' b : str) :
  Z.of_nat (length (split (toLowerCase a))) <= 94906265 ->
  Z.of_nat (length (split (toLowerCase b))) <= 94906265 ->
  split (toLowerCase a) ≡ₚ split (toLowerCase a') ->
  cosineSimilarity toLowerCase a b = cosineSimilarity toLowerCase a' b.
Proof.
  intros Ha Hb Hp.
  assert (Ha' : Z.of_nat (length (split (toLowerCase a'))) <= 94906265)
    by (by rewrite <- Hp).
  assert (Hset : setOf (split (toLowerCase a) ++ split (toLowerCase b))
                 ≡ₚ setOf (split (toLowerCase a') ++ split (toLowerCase b))).
  { apply NoDup_Permutation; [apply setOf_NoDup..|].
    intros x. rewrite !setOf_elem_of, !elem_of_app. by rewrite Hp. }
  rewrite (cosineSimilarity_exact toLowerCase a b Ha Hb).
  rewrite (cosineSimilarity_exact toLowerCase a' b Ha' Hb).
  rewrite !(sumOver_perm _ _ _ Hset).
  rewrite (sumOver_ext (fun w => countOf w (split (toLowerCase a)) *
                                 countOf w (split (toLowerCase a)))
             (fun w => countOf w (split (toLowerCase a')) *
                       countOf w (split (toLowerCase a'))))
    by (intros w; by rewrite (countOf_perm w _ _ Hp)).
  rewrite (sumOver_ext (fun w => countOf w (split (toLowerCase a)) *
                                 countOf w (split (toLowerCase b)))
             (fun w => countOf w (split (toLowerCase a')) *
                       countOf w (split (toLowerCase b))))
    by (intros w; by rewrite (countOf_perm w _ _ Hp)).
  done.
Qed.

End Similarity.

Lemma cosineSimilarity_disjoint_witness :
  (forall w, w ∈ split (Sample.toLowerCase (lit "good day")) ->
             w ∉ split (Sample.toLowerCase (lit "night"))) /\
  cosineSimilarity Sample.toLowerCase (lit "good day") (lit "night") = 0%float.
Proof.
  assert (H : forall w, w ∈ split (Sample.toLowerCase (lit "good day")) ->
                        w ∉ split (Sample.toLowerCase (lit "night"))).
  { intros w Hw ->%list_elem_of_singleton. vm_compute in Hw.
    repeat (apply elem_of_cons in Hw as [Hw|Hw]; [discriminate|]).
    by apply elem_of_nil in Hw. }
  split; [exact H|].
  exact (cosineSimilarity_disjoint Sample.toLowerCase (lit "good day")
           (lit "night") H).
Defined.

Lemma single_token_keyword_witness :
  Sample.toLowerCase (lit "happy birthday") = lit "happy birthday" /\
  Forall (fun c => isSpace c = false) (Sample.toLowerCase (lit "Party")) /\
  keywordStep Sample.toLowerCase (lit "happy birthday") (0%float, 0%nat)
    (lit "Party") = (0%float, 0%nat).
Proof.
  assert (H1 : Sample.toLowerCase (lit "happy birthday") = lit "happy birthday")
    by (vm_compute; reflexivity).
  assert (H2 : Sample.toLowerCase (Sample.toLowerCase (lit "Party"))
               = Sample.toLowerCase (lit "Party")) by (vm_compute; reflexivity).
  assert (H3 : Forall (fun c => isSpace c = false)
                 (Sample.toLowerCase (lit "Party"))).
  { vm_compute. repeat constructor. }
  split; [exact H1|]. split; [exact H3|].
  exact (single_token_keyword Sample.toLowerCase (lit "happy birthday")
           (lit "Party") (0%float, 0%nat) H1 H2 H3).
Defined.

Lemma cosineSimilarity_token_order_witness :
  Z.of_nat (length (split (Sample.toLowerCase (lit "good day")))) <= 94906265 /\
  Z.of_nat (length (split (Sample.toLowerCase (lit "day")))) <= 94906265 /\
  split (Sample.toLowerCase (lit "good day")) ≡ₚ
    split (Sample.toLowerCase (lit "day good")) /\
  cosineSimilarity Sample.toLowerCase (lit "good day") (lit "day")
  = cosineSimilarity Sample.toLowerCase (lit "day good") (lit "day").
Proof.
  assert (H1 : Z.of_nat (length (split (Sample.toLowerCase (lit "good day"))))
               <= 94906265) by (vm_compute; discriminate).
  assert (H2 : Z.of_nat (length (split (Sample.toLowerCase (lit "day"))))
               <= 94906265) by (vm_compute; discriminate).
  assert (H : split (Sample.toLowerCase (lit "good day")) ≡ₚ
              split (Sample.toLowerCase (lit "day good"))).
  { vm_compute. apply perm_swap. }
  split; [exact H1|]. split; [exact H2|]. split; [exact H|].
  exact (cosineSimilarity_token_order Sample.toLowerCase (lit "good day")
           (lit "day good") (lit "day") H1 H2 H).
Defined.

(** ** The category accessor *)

Section Category.
Variable emojiDatabase : list EmojiData.t.

(** X14 — the category accessor: for a limit that is not negative, the
    symbols returned are a subsequence of the symbols of the knowledge
    base, in its order; there are as many of them as the limit allows,
    up to the number of records of the category; and a larger limit only
    extends the sequence. *)
Theorem getEmojisByCategory_order (category : str) (limit limit' : Z) :
  0 <= limit -> limit <= limit' ->
  let r := getEmojisByCategory emojiDatabase category limit in
  r `sublist_of` EmojiData.emoji <$> emojiDatabase /\
  length r
  = (Z.to_nat limit `min`
       length (filter (fun data => EmojiData.category data = category)
                 emojiDatabase))%nat /\
  r `prefix_of` getEmojisByCategory emojiDatabase category limit'.
Proof.
  intros H0 Hle. unfold getEmojisByCategory. cbv zeta.
  rewrite !slice0_nonneg by lia.
  set (l := filter _ emojiDatabase). repeat split.
  - apply fmap_sublist. etransitivity; [apply sublist_take|].
    apply sublist_filter.
  - by rewrite length_fmap, length_take.
  - replace (take (Z.to_nat limit) l)
      with (take (Z.to_nat limit) (take (Z.to_nat limit') l))
      by (rewrite take_take; f_equal; lia).
    destruct (prefix_take (take (Z.to_nat limit') l) (Z.to_nat limit))
      as [k Hk].
    exists (EmojiData.emoji <$> k). rewrite <- fmap_app. by f_equal.
Qed.

End Category.

Lemma getEmojisByCategory_order_witness :
  0 <= 1 /\ 1 <= 3 /\
  getEmojisByCategory Sample.emojiDatabase (lit "celebration") 1
    `sublist_of` EmojiData.emoji <$> Sample.emojiDatabase /\
  length (getEmojisByCategory Sample.emojiDatabase (lit "celebration") 1)
  = (Z.to_nat 1 `min`
       length (filter (fun data => EmojiData.category data = lit "celebration")
                 Sample.emojiDatabase))%nat /\
  getEmojisByCategory Sample.emojiDatabase (lit "celebration") 1
    `prefix_of` getEmojisByCategory Sample.emojiDatabase (lit "celebration") 3.
Proof.
  assert (H0 : 0 <= 1) by lia. assert (H1 : 1 <= 3) by lia.
  split; [exact H0|]. split; [exact H1|].
  exact (getEmojisByCategory_order Sample.emojiDatabase (lit "celebration")
           1 3 H0 H1).
Defined.

(** ** The component: the word under the cursor *)

Lemma trimStart_no_space s :
  Forall (fun c => isSpace c = false) s -> trimStart s = s.
Proof. destruct 1 as [|c s Hc _]; simpl; [done|]. by rewrite Hc. Qed.

Lemma trim_no_space s : Forall (fun c => isSpace c = false) s -> trim s = s.
Proof.
  intros H. unfold trim, trimEnd. rewrite (trimStart_no_space s H).
  rewrite trimStart_no_space by (by apply List.Forall_rev).
  apply rev_involutive.
Qed.

(** The last token of a scan: either the scan met no white space and the
    token is all of it, or the token is what follows the last white
    space. *)
Lemma last_splitFrom s : forall sep tok,
  exists t,
    last (splitFrom sep tok s) = Some t /\
    ((Forall (fun c => isSpace c = false) s /\ t = tok ++ s) \/
     (exists pre c, s = pre ++ c :: t /\ isSpace c = true /\
                    Forall (fun c => isSpace c = false) t)).
Proof.
  induction s as [|c s IH]; intros sep tok; simpl.
  - exists tok. split; [done|]. left. by rewrite app_nil_r.
  - destruct (isSpace c) eqn:Hc.
    + destruct (IH true []) as (t & Hlast & Ht). exists t. split.
      * destruct sep; [done|]. by rewrite last_cons, Hlast.
      * right. destruct Ht as [[Hs ->]|(pre & c' & -> & Hc' & Ht)].
        -- by exists [], c.
        -- by exists (c :: pre), c'.
    + destruct (IH false (tok ++ [c])) as (t & Hlast & Ht). exists t.
      split; [done|]. destruct Ht as [[Hs ->]|(pre & c' & -> & Hc' & Ht)].
      * left. split; [by constructor|]. by rewrite <- app_assoc.
      * right. by exists (c :: pre), c'.
Qed.

(** X15 — the word under the cursor: [getCurrentWord] returns the longest
    suffix without white space of the text before the cursor; the word
    holds no white space, so that trimming leaves it as it is. *)
Theorem getCurrentWord_suffix (text : str) (cursorPosition : Z) :
  let beforeCursor := slice0 text cursorPosition in
  let word := EmojiPredictor.getCurrentWord text cursorPosition in
  Forall (fun c => isSpace c = false) word /\
  trim word = word /\
  exists pre,
    beforeCursor = pre ++ word /\
    (pre = [] \/ exists pre' c, pre = pre' ++ [c] /\ isSpace c = true).
Proof.
  intros beforeCursor word. unfold word, EmojiPredictor.getCurrentWord.
  cbv zeta. fold beforeCursor. unfold split.
  destruct (last_splitFrom beforeCursor false []) as (t & -> & Ht). simpl.
  destruct Ht as [[Hs ->]|(pre & c & -> & Hc & Ht)]; simpl.
  - split; [done|]. split; [by apply trim_no_space|]. exists []. by split; [|left].
  - split; [done|]. split; [by apply trim_no_space|].
    exists (pre ++ [c]). split; [by rewrite <- app_assoc|].
    right. by exists pre, c.
Qed.

(** ** The component: what holds between two events *)

Section Component.
Variable toLowerCase : str -> str.
Variable emojiDatabase : list EmojiData.t.
Variable emojiKeywordIndex : list (str * list str).

Lemma predictEmojisForWord_capped word n :
  0 <= n ->
  exists r,
    predictEmojisForWord toLowerCase emojiKeywordIndex word n = Some r /\
    Z.of_nat (length r) <= n /\ NoDup r.
Proof.
  intros Hn.
  destruct (predictEmojisForWord_inv toLowerCase emojiKeywordIndex AccOk)
    with (word := word) (maxResults := n) as [->|(acc & -> & Hacc & _)].
  - intros sc mt acc e _ _. apply claim_AccOk.
  - apply claimAll_inv with (Q := fun _ => True).
    + intros acc e Hacc _. by apply claim_AccOk.
    + by apply Forall_forall.
    + apply AccOk_empty.
  - eexists. split; [done|]. split; [simpl; lia|constructor].
  - eexists. split; [done|]. split; [by apply ranking_length|by apply ranking_NoDup].
Qed.

Lemma predictEmojisForSentence_capped sentence n :
  0 <= n ->
  exists r,
    predictEmojisForSentence toLowerCase emojiDatabase emojiKeywordIndex
      sentence n = Some r /\
    Z.of_nat (length r) <= n /\ NoDup r.
Proof.
  intros Hn.
  destruct (predictEmojisForSentence_inv toLowerCase emojiDatabase
              emojiKeywordIndex AccOk)
    with (sentence := sentence) (maxResults := n) as (acc & -> & Hacc & _).
  - intros sc mt acc e _. apply claim_AccOk.
  - apply AccOk_empty.
  - eexists. split; [done|]. split; [by apply ranking_length|by apply ranking_NoDup].
Qed.

Abbreviation effect := (EmojiPredictor.effect toLowerCase emojiKeywordIndex).
Abbreviation timeout :=
  (EmojiPredictor.timeout toLowerCase emojiDatabase emojiKeywordIndex).
Abbreviation step :=
  (EmojiPredictor.step toLowerCase emojiDatabase emojiKeywordIndex).
Abbreviation run :=
  (EmojiPredictor.run toLowerCase emojiDatabase emojiKeywordIndex).

Ltac Inv_tac :=
  unfold EmojiPredictor.Inv; simpl;
  repeat split; intros; try done; try lia; try congruence;
  try (by constructor).

Lemma effect_Inv selectionStart s :
  (length (EmojiPredictor.sentenceEmojis s) <= 12)%nat ->
  NoDup (EmojiPredictor.sentenceEmojis s) ->
  exists s', effect selectionStart s = Some s' /\ EmojiPredictor.Inv s'.
Proof.
  intros Hlen Hnd. unfold EmojiPredictor.effect. cbv zeta.
  destruct (bool_decide_reflect (trim (EmojiPredictor.inputText s) = []))
    as [Hblank|Hblank].
  - eexists. split; [done|]. Inv_tac.
  - destruct (2 <=? _).
    + destruct (predictEmojisForWord_capped
                  (EmojiPredictor.getCurrentWord (EmojiPredictor.inputText s)
                     (EmojiPredictor.cursorPosition selectionStart
                        (EmojiPredictor.inputText s))) 6)
        as (r & -> & Hr & Hrnd); [lia|].
      rewrite bind_Some_l. eexists. split; [done|]. Inv_tac.
    + eexists. split; [done|]. Inv_tac.
Qed.

Lemma timeout_Inv s :
  EmojiPredictor.Inv s ->
  exists s', timeout s = Some s' /\ EmojiPredictor.Inv s'.
Proof.
  intros (H1 & H2 & H3 & H4 & H5 & H6 & H7). unfold EmojiPredictor.timeout.
  destruct (EmojiPredictor.typingTimeout s) as [text|] eqn:Ht.
  - destruct (H6 text eq_refl) as [-> Hne].
    destruct (0 <? _).
    + destruct (predictEmojisForSentence_capped (EmojiPredictor.inputText s) 12)
        as (r & -> & Hr & Hrnd); [lia|].
      rewrite bind_Some_l. eexists. split; [done|]. Inv_tac.
    + eexists. split; [done|]. Inv_tac; try (by apply H5); by apply H7.
  - exists s. split; [done|]. unfold EmojiPredictor.Inv. by rewrite Ht.
Qed.

Lemma step_Inv e s :
  EmojiPredictor.Inv s ->
  exists s', step e s = Some s' /\ EmojiPredictor.Inv s'.
Proof.
  intros Hs. pose proof Hs as (H1 & H2 & H3 & H4 & H5 & H6 & H7).
  destruct e as [text sel|emoji sel|sel|]; simpl.
  - unfold EmojiPredictor.setInputText. destruct (decide _); [by exists s|].
    by apply effect_Inv.
  - unfold EmojiPredictor.handleEmojiClick. cbv zeta.
    destruct (decide (emoji = [])) as [->|]; [|by apply effect_Inv].
    eexists. split; [done|]. unfold EmojiPredictor.Inv. simpl.
    by rewrite app_nil_r.
  - unfold EmojiPredictor.clearAll. cbv zeta.
    destruct (decide _) as [E|]; [|apply effect_Inv; simpl; [lia|constructor]].
    eexists. split; [done|]. unfold EmojiPredictor.Inv. simpl.
    destruct H7 as (_ & Ht & _); [by rewrite E|]. rewrite Ht. Inv_tac.
  - by apply timeout_Inv.
Qed.

Lemma steps_Inv events : forall s,
  EmojiPredictor.Inv s ->
  exists s', forEachM step events s = Some s' /\ EmojiPredictor.Inv s'.
Proof.
  induction events as [|e events IH]; intros s Hs; simpl.
  - by exists s.
  - destruct (step_Inv e s Hs) as (s1 & -> & H1). rewrite bind_Some_l.
    by apply IH.
Qed.

Lemma run_Inv events :
  exists s, run events = Some s /\ EmojiPredictor.Inv s.
Proof.
  apply steps_Inv. Inv_tac.
Qed.

(** X16 — the component never fails and its lists stay short: after any
    sequence of events the state is defined, the word predictions are at
    most 6 and the sentence predictions at most 12, and neither list
    holds a symbol twice. *)
Theorem component_predictions_capped (events : list EmojiPredictor.Event) :
  exists s,
    run events = Some s /\
    (length (EmojiPredictor.currentWordEmojis s) <= 6)%nat /\
    NoDup (EmojiPredictor.currentWordEmojis s) /\
    (length (EmojiPredictor.sentenceEmojis s) <= 12)%nat /\
    NoDup (EmojiPredictor.sentenceEmojis s).
Proof.
  destruct (run_Inv events) as (s & Hs & H1 & H2 & H3 & H4 & _).
  by exists s.
Qed.

(** X17 — the timer and the two panels: after any sequence of events,
    the sentence panel is shown only when there are no word predictions
    and no timer is armed; a text that is blank has no word predictions,
    no timer and no sentence panel; and a timer that is armed has
    captured the current text, which is not blank, so that its callback
    always takes the branch that predicts for the sentence. *)
Theorem component_timer_discipline (events : list EmojiPredictor.Event) :
  exists s,
    run events = Some s /\
    (EmojiPredictor.showSentencePrediction s = true ->
     EmojiPredictor.currentWordEmojis s = [] /\
     EmojiPredictor.typingTimeout s = None) /\
    (trim (EmojiPredictor.inputText s) = [] ->
     EmojiPredictor.currentWordEmojis s = [] /\
     EmojiPredictor.typingTimeout s = None /\
     EmojiPredictor.showSentencePrediction s = false) /\
    (forall text,
        EmojiPredictor.typingTimeout s = Some text ->
        text = EmojiPredictor.inputText s /\
        exists r,
          predictEmojisForSentence toLowerCase emojiDatabase emojiKeywordIndex
            text 12 = Some r /\
          timeout s
          = Some (EmojiPredictor.mkState (EmojiPredictor.inputText s) [] r
                    false true (EmojiPredictor.selectedEmojis s) None)).
Proof.
  destruct (run_Inv events) as (s & Hs & _ & _ & _ & _ & H5 & H6 & H7).
  exists s. repeat split; try done; try (by apply H5); try (by apply H7).
  - by apply H6.
  - destruct (H6 text H) as [-> Hne].
    destruct (predictEmojisForSentence_capped (EmojiPredictor.inputText s) 12)
      as (r & Hr & _); [lia|].
    exists r. split; [done|]. unfold EmojiPredictor.timeout. rewrite H.
    replace (0 <? len (trim (EmojiPredictor.inputText s))) with true.
    + by rewrite Hr.
    + symmetry. apply Z.ltb_lt. unfold len.
      destruct (trim (EmojiPredictor.inputText s)); [done|simpl; lia].
Qed.

(** X18 — the typing flag outlives a clear: whatever happened before,
    [clearAll] empties the text and the lists but leaves [isTyping] as it
    was, and no timer is armed afterwards, so a timer callback (the only
    place that resets the flag) does not come: the firing of the timer
    changes nothing. *)
Theorem clearAll_keeps_isTyping (events : list EmojiPredictor.Event)
  (selectionStart : option nat) :
  exists s s',
    run events = Some s /\
    EmojiPredictor.clearAll toLowerCase emojiKeywordIndex selectionStart s
      = Some s' /\
    s' = EmojiPredictor.mkState [] [] [] (EmojiPredictor.isTyping s) false []
           None /\
    timeout s' = Some s'.
Proof.
  destruct (run_Inv events) as (s & Hs & _ & _ & _ & _ & _ & _ & H7).
  exists s. eexists. split; [done|].
  unfold EmojiPredictor.clearAll. cbv zeta.
  destruct (decide (EmojiPredictor.inputText s = [])) as [E|E].
  - destruct H7 as (_ & -> & _); [by rewrite E|]. done.
  - done.
Qed.

End Component.

(** ** The ranking of the word matcher *)

Section TopScores.
Variable toLowerCase : str -> str.
Variable emojiKeywordIndex : list (str * list str).

(** X19 — the word matcher returns the best candidates: for a word that
    passes the guard and [maxResults = n >= 0], the result is the symbols
    of [min n (number of candidates)] candidates, in descending order of
    score, and no candidate that is left out scores more than one that
    is kept. *)
Theorem predictEmojisForWord_top_scores (word : str) (n : Z) :
  (2 <= length word)%nat -> 0 <= n ->
  exists acc kept dropped,
    wordCandidates emojiKeywordIndex (trim (toLowerCase word)) n = Some acc /\
    predictEmojisForWord toLowerCase emojiKeywordIndex word n
      = Some (emoji <$> kept) /\
    kept ++ dropped ≡ₚ matches acc /\
    length kept = (Z.to_nat n `min` length (matches acc))%nat /\
    StronglySorted (fun a b => score b <= score a) kept /\
    forall a b, a ∈ kept -> b ∈ dropped -> score b <= score a.
Proof.
  intros Hword Hn. unfold predictEmojisForWord, len.
  destruct word as [|c word]; [simpl in Hword; lia|].
  rewrite bool_decide_eq_false_2 by done.
  destruct (Z.ltb_spec (Z.of_nat (length (c :: word))) 2); [lia|].
  cbn [orb].
  destruct (wordCandidates_inv emojiKeywordIndex (fun _ => True))
    with (w := trim (toLowerCase (c :: word))) (maxResults := n)
    as (acc & Hacc & _); [done..|].
  rewrite Hacc, bind_Some_l. unfold rank. rewrite slice0_nonneg by done.
  pose proof (sort_afterZ_sorted (matches acc)) as Hsorted.
  rewrite <- (take_drop (Z.to_nat n) (sort afterZ (matches acc))) in Hsorted.
  apply StronglySorted_app in Hsorted as (Hcross & Hkept & _).
  exists acc, (take (Z.to_nat n) (sort afterZ (matches acc))),
    (drop (Z.to_nat n) (sort afterZ (matches acc))).
  split; [done|]. split; [done|]. split; [by rewrite take_drop, sort_perm|].
  split; [by rewrite length_take, length_sort|]. split; [done|].
  intros a b Ha Hb. by apply Hcross.
Qed.

End TopScores.

Lemma predictEmojisForWord_top_scores_witness :
  (2 <= length (lit "happy"))%nat /\ 0 <= 1 /\
  exists acc kept dropped,
    wordCandidates Sample.emojiKeywordIndex
      (trim (Sample.toLowerCase (lit "happy"))) 1 = Some acc /\
    Sample.predictEmojisForWord (lit "happy") 1 = Some (emoji <$> kept) /\
    kept ++ dropped ≡ₚ matches acc /\
    length kept = (Z.to_nat 1 `min` length (matches acc))%nat /\
    StronglySorted (fun a b => score b <= score a) kept /\
    forall a b, a ∈ kept -> b ∈ dropped -> score b <= score a.
Proof.
  assert (H1 : (2 <= length (lit "happy"))%nat) by (simpl; lia).
  assert (H2 : 0 <= 1) by lia.
  split; [exact H1|]. split; [exact H2|].
  exact (predictEmojisForWord_top_scores Sample.toLowerCase
           Sample.emojiKeywordIndex (lit "happy") 1 H1 H2).
Defined.
